(** * nomgen: the Go code generator of noms, and its type-graph walker

    A shallow embedding of [nomgen/nomgen.go].  A type definition is a
    noms value: a [types.String] naming a primitive, or a [types.Map]
    whose ["$type"] entry tells its shape.  The generator keeps two sets
    of values, [written] and [toWrite], and drains [toWrite], executing
    one template per type definition.

    Panics ([Chk.Fail], a failed type assertion, an index out of range)
    are results of their own: the generator state reached at the panic is
    kept, nothing is rolled back. *)

From Stdlib Require Import List String Ascii Bool Arith Lia Permutation.
Import ListNotations.
Local Open Scope string_scope.
Local Open Scope list_scope.
Set Warnings "-register-all".

(** ** The value library, package [types] *)

Module types.

(** Modelled from the spec: package [types] (the value library:
    [types.Value], [types.String], [types.Map], [types.Set]) is not part
    of the sources at hand.  A value is a string, a map with its entries
    in stored order, or a value of another kind (a set, a number, a
    blob...), of which the generator only sees that it is neither a
    string nor a map.  A Go interface that may be nil is an
    [option Value]. *)
Inductive Value : Type :=
| String (s : string)
| Map (entries : list (Value * Value))
| Other (kind : nat).

Definition mapData : Type := list (Value * Value).

Definition NewString (s : string) : Value := String s.

(** Structural (deep) equality of values.  A map is given by its entries
    in stored order, and maps that are equal are taken to be stored alike,
    so that two maps are equal when their entries are, one by one. *)
Fixpoint Equals (a b : Value) {struct a} : bool :=
  match a, b with
  | String s, String t => String.eqb s t
  | Map es, Map fs =>
      (fix entries (es fs : list (Value * Value)) {struct es} : bool :=
         match es, fs with
         | [], [] => true
         | (k, v) :: es', (k', v') :: fs' =>
             Equals k k' && Equals v v' && entries es' fs'
         | _, _ => false
         end) es fs
  | Other m, Other n => Nat.eqb m n
  | _, _ => false
  end.

(** [m.Get(key)]: the value stored at [key], nil when there is none. *)
Fixpoint Get (key : Value) (m : mapData) : option Value :=
  match m with
  | [] => None
  | (k, v) :: m' => if Equals k key then Some v else Get key m'
  end.

(** Sets of values, compared with [Equals]. *)
Definition Set_ : Type := list Value.

Definition NewSet : Set_ := [].

Definition Has (v : Value) (s : Set_) : bool := existsb (Equals v) s.

Definition Insert (v : Value) (s : Set_) : Set_ :=
  if Has v s then s else s ++ [v].

Definition Remove (v : Value) (s : Set_) : Set_ :=
  filter (fun x => negb (Equals v x)) s.

Definition Empty (s : Set_) : bool :=
  match s with [] => true | _ :: _ => false end.

End types.

(** ** Go's [strings.Title] and [strings.HasPrefix], on ASCII *)

Module strings.

Definition inRange (lo hi c : ascii) : bool :=
  ((nat_of_ascii lo <=? nat_of_ascii c) && (nat_of_ascii c <=? nat_of_ascii hi))%nat.

(** ASCII letters, digits and the underscore are not separators; every
    other ASCII character is.  Bytes above 0x7F are parts of longer runes,
    which this model does not decode: it takes them for letters. *)
Definition isSeparator (c : ascii) : bool :=
  if (nat_of_ascii c <=? 127)%nat
  then negb (inRange "0" "9" c || inRange "a" "z" c || inRange "A" "Z" c
             || Ascii.eqb c "_")%char
  else false.

Definition ToTitle (c : ascii) : ascii :=
  if inRange "a"%char "z"%char c then ascii_of_nat (nat_of_ascii c - 32) else c.

Fixpoint mapTitle (prev : ascii) (s : string) : string :=
  match s with
  | EmptyString => EmptyString
  | String.String c s' =>
      String.String (if isSeparator prev then ToTitle c else c) (mapTitle c s')
  end.

(** [Title] puts in title case the letters that begin words. *)
Definition Title (s : string) : string := mapTitle " "%char s.

Definition HasPrefix (s p : string) : bool := String.prefix p s.

End strings.

(** ** Panics and results *)

(** Modelled from the spec: package [dbg], whose [Chk.Fail] the generator
    calls, is not part of the sources at hand; the spec has these failures
    fatal, so [Chk.Fail] is a panic.  The other panics are those of the Go
    runtime. *)
Inductive Panic : Type :=
| UnexpectedTypedef (val : option types.Value)
    (* Chk.Fail("Unexpected typedef: %+v") *)
| UnexpectedNomsTypeName (name : string)
    (* Chk.Fail("unexpected noms type name: %s") *)
| UnexpectedTypeDefStruct (typeDef : option types.Value)
    (* Chk.Fail("Unexpected typeDef struct: %+v") *)
| TypeAssertion (val : option types.Value)
    (* x.(T) on a value that is nil or not a T *)
| IndexOutOfRange.
    (* s[0] on an empty string *)

Inductive Result (A : Type) : Type :=
| Ok (a : A)
| Fail (p : Panic).
Arguments Ok {A} a.
Arguments Fail {A} p.

Definition rbind {A B : Type} (r : Result A) (k : A -> Result B) : Result B :=
  match r with
  | Ok a => k a
  | Fail p => Fail p
  end.

(** [v.(types.String).String()] *)
Definition asString (v : option types.Value) : Result string :=
  match v with
  | Some (types.String s) => Ok s
  | _ => Fail (TypeAssertion v)
  end.

(** ** Names *)

Definition nomsTypeNames : list string :=
  ["bool"; "int16"; "int32"; "int64"; "uint16"; "uint32"; "uint64";
   "float32"; "float64"; "blob"; "string"; "set"; "map"; "value"].

Definition isNomsTypeName (name : string) : bool :=
  existsb (String.eqb name) nomsTypeNames.

Section CallOnGet.

Variable f : types.Value -> Result string.

(** [f(m.Get(key))] for an [f] that fails on nil the way
    [getGoStructName] does: [Get] and the call in one traversal, so that
    the recursion of [getGoStructName] is on parts of its argument. *)
Fixpoint callOnGet (key : types.Value) (m : types.mapData) : Result string :=
  match m with
  | [] => Fail (UnexpectedTypeDefStruct None)
  | (k, v) :: m' => if types.Equals k key then f v else callOnGet key m'
  end.

End CallOnGet.

(** [getGoStructName] on a value that is not nil.  The recursive calls of
    the source are on [typeDef.Get(...)]; see [getGoStructName_Map] for
    the equation in the source's shape. *)
Fixpoint getGoStructName_val (typeDef : types.Value) : Result string :=
  match typeDef with
  | types.String name =>
      if isNomsTypeName name
      then Ok (strings.Title name)
      else Fail (UnexpectedNomsTypeName name)
  | types.Map m =>
      rbind (asString (types.Get (types.NewString "$type") m)) (fun typ =>
      if typ =? "noms.ListDef" then
        rbind (callOnGet getGoStructName_val (types.NewString "elem") m) (fun e =>
        Ok (e ++ "List")%string)
      else if typ =? "noms.MapDef" then
        rbind (callOnGet getGoStructName_val (types.NewString "key") m) (fun k =>
        rbind (callOnGet getGoStructName_val (types.NewString "value") m) (fun v =>
        Ok (k ++ v ++ "Map")%string))
      else if typ =? "noms.SetDef" then
        rbind (callOnGet getGoStructName_val (types.NewString "elem") m) (fun e =>
        Ok (e ++ "Set")%string)
      else if typ =? "noms.StructDef" then
        asString (types.Get (types.NewString "$name") m)
      else Fail (UnexpectedTypeDefStruct (Some typeDef)))
  | types.Other _ => Fail (UnexpectedTypeDefStruct (Some typeDef))
  end.

Definition getGoStructName (typeDef : option types.Value) : Result string :=
  match typeDef with
  | Some v => getGoStructName_val v
  | None => Fail (UnexpectedTypeDefStruct None)
  end.

Definition getGoTypeName (typeDef : option types.Value) : Result string :=
  rbind (getGoStructName typeDef) (fun typeName =>
  match typeDef with
  | Some (types.String _) => Ok ("types." ++ typeName)%string
  | _ => Ok typeName
  end).

Definition fromNomsValue (name : string) : string :=
  if name =? "types.Value" then "" else (name ++ "FromVal")%string.

Definition toNomsValue (name : string) : string :=
  if strings.HasPrefix name "types." then "" else ".NomsValue()".

(** ** The generator *)

(** Modelled from the spec: the template files ([header.tmpl],
    [list.tmpl], ...) are not part of the sources at hand, and rendering is
    an opaque service.  What reaches the writer is recorded as the sequence
    of template executions, each with the data record it was given. *)
Inductive Block : Type :=
| headerTmpl (PackageName : string)
| listTempl (StructName ElemName : string)
| mapTempl (StructName KeyName ValueName : string)
| setTempl (StructName ElemName : string)
| structTempl (StructName : string)
| fieldTempl (StructName FieldType GoFieldName FieldName : string).

Record NG : Type := mkNG {
  w : list Block;
  written : types.Set_;
  toWrite : types.Set_
}.

Definition New (w : list Block) : NG :=
  {| w := w; written := types.NewSet; toWrite := types.NewSet |}.

(** A method of the generator ends normally or panics; either way it
    leaves a generator state behind. *)
Inductive Outcome (A : Type) : Type :=
| Done (a : A) (ng : NG)
| Panicked (p : Panic) (ng : NG).
Arguments Done {A} a ng.
Arguments Panicked {A} p ng.

Definition state {A : Type} (o : Outcome A) : NG :=
  match o with
  | Done _ ng => ng
  | Panicked _ ng => ng
  end.

Definition M (A : Type) : Type := NG -> Outcome A.

Definition ret {A : Type} (a : A) : M A := fun ng => Done a ng.

Definition bind {A B : Type} (c : M A) (k : A -> M B) : M B :=
  fun ng =>
    match c ng with
    | Done a ng' => k a ng'
    | Panicked p ng' => Panicked p ng'
    end.

Definition lift {A : Type} (r : Result A) : M A :=
  fun ng =>
    match r with
    | Ok a => Done a ng
    | Fail p => Panicked p ng
    end.

Notation "x <- c ;; k" := (bind c (fun x => k))
  (at level 61, c at next level, right associativity).
Notation "c ;;; k" := (bind c (fun _ => k))
  (at level 61, right associativity).

(** [tmpl.Execute(ng.w, data)] *)
Definition Execute (b : Block) : M unit :=
  fun ng => Done tt {| w := w ng ++ [b]; written := written ng; toWrite := toWrite ng |}.

Definition addType (val : option types.Value) : M unit :=
  match val with
  | Some (types.String _) => ret tt
  | Some (types.Map m) =>
      fun ng =>
        if types.Has (types.Map m) (written ng) || types.Has (types.Map m) (toWrite ng)
        then Done tt ng
        else Done tt {| w := w ng; written := written ng;
                        toWrite := types.Insert (types.Map m) (toWrite ng) |}
  | _ => lift (Fail (UnexpectedTypedef val))
  end.

Definition writeSet (val : types.mapData) : M unit :=
  let elem := types.Get (types.NewString "elem") val in
  addType elem ;;;
  StructName <- lift (getGoTypeName (Some (types.Map val))) ;;
  ElemName <- lift (getGoTypeName elem) ;;
  Execute (setTempl StructName ElemName).

Definition writeList (val : types.mapData) : M unit :=
  let elem := types.Get (types.NewString "elem") val in
  addType elem ;;;
  StructName <- lift (getGoTypeName (Some (types.Map val))) ;;
  ElemName <- lift (getGoTypeName elem) ;;
  Execute (listTempl StructName ElemName).

Definition writeMap (val : types.mapData) : M unit :=
  let key := types.Get (types.NewString "key") val in
  addType key ;;;
  let valueName := types.Get (types.NewString "value") val in
  addType valueName ;;;
  StructName <- lift (getGoTypeName (Some (types.Map val))) ;;
  KeyName <- lift (getGoTypeName key) ;;
  ValueName <- lift (getGoTypeName valueName) ;;
  Execute (mapTempl StructName KeyName ValueName).

Definition writeField (structName fieldName : string) (typeDef : option types.Value) : M unit :=
  addType typeDef ;;;
  FieldType <- lift (getGoTypeName typeDef) ;;
  Execute (fieldTempl structName FieldType (strings.Title fieldName) fieldName).

(** [sk[0]] *)
Definition index0 (sk : string) : Result ascii :=
  match sk with
  | EmptyString => Fail IndexOutOfRange
  | String.String c _ => Ok c
  end.

(** Modelled from the spec: [types.Map.Iter] is not part of the sources at
    hand; it calls the callback on the entries in stored order.  The
    callback of [writeStruct] never asks to stop; a panic in it ends the
    iteration. *)
Fixpoint Iter (cb : types.Value -> types.Value -> M unit) (m : types.mapData) : M unit :=
  match m with
  | [] => ret tt
  | (k, v) :: m' => cb k v ;;; Iter cb m'
  end.

(** The function literal that [writeStruct] hands to [val.Iter]. *)
Definition writeStruct_func (structName : string) (k v : types.Value) : M unit :=
  sk <- lift (asString (Some k)) ;;
  c <- lift (index0 sk) ;;
  if negb (Ascii.eqb c "$")
  then writeField structName sk (Some v)
  else ret tt.

Definition writeStruct (val : types.mapData) : M unit :=
  structName <- lift (getGoTypeName (Some (types.Map val))) ;;
  StructName <- lift (getGoTypeName (Some (types.Map val))) ;;
  Execute (structTempl StructName) ;;;
  Iter (writeStruct_func structName) val.

Definition writeType (val : types.mapData) : M unit :=
  typ <- lift (asString (types.Get (types.NewString "$type") val)) ;;
  if typ =? "noms.ListDef" then writeList val
  else if typ =? "noms.MapDef" then writeMap val
  else if typ =? "noms.SetDef" then writeSet val
  else if typ =? "noms.StructDef" then writeStruct val
  else lift (Fail (UnexpectedTypedef (Some (types.Map val)))).

(** [ng.toWrite = ng.toWrite.Remove(t)] then
    [ng.written = ng.written.Insert(t)]. *)
Definition markWritten (t : types.Value) (ng : NG) : NG :=
  let ng1 := {| w := w ng; written := written ng;
                toWrite := types.Remove t (toWrite ng) |} in
  {| w := w ng1; written := types.Insert t (written ng1); toWrite := toWrite ng1 |}.

Section WorkList.

(** Modelled from the spec: [types.Set.Any] is not part of the sources
    at hand; it yields some member of a set that is not empty, which one
    is left open. *)
Variable Any : types.Set_ -> types.Value.

(** One pass through the body of the loop of [WriteGo]. *)
Definition writeNext (ng : NG) : Outcome unit :=
  let t := Any (toWrite ng) in
  let ng' := markWritten t ng in
  match t with
  | types.Map m => writeType m ng'
  | _ => Panicked (TypeAssertion (Some t)) ng'
  end.

(** The loop [for !ng.toWrite.Empty() { ... }], allowed at most [fuel]
    passes through its body; [None] when that is not enough. *)
Fixpoint drain (fuel : nat) (ng : NG) : option (Outcome unit) :=
  if types.Empty (toWrite ng) then Some (Done tt ng)
  else
    match fuel with
    | 0 => None
    | S fuel' =>
        match writeNext ng with
        | Done _ ng' => drain fuel' ng'
        | Panicked p ng' => Some (Panicked p ng')
        end
    end.

Definition WriteGo (fuel : nat) (val : types.mapData) (pkg : string) (ng : NG)
  : option (Outcome unit) :=
  match (Execute (headerTmpl pkg) ;;; addType (Some (types.Map val))) ng with
  | Done _ ng' => drain fuel ng'
  | Panicked p ng' => Some (Panicked p ng')
  end.

End WorkList.

(** [Any] as the member that has waited longest. *)
Definition AnyFirst (s : types.Set_) : types.Value :=
  hd (types.Other 0) s.

(** [Any] as the member that came last. *)
Definition AnyLast (s : types.Set_) : types.Value :=
  last s (types.Other 0).

(** ** Type definitions, built as the tests of the value library would *)

Definition ListDef (elem : types.Value) : types.Value :=
  types.Map [(types.String "$type", types.String "noms.ListDef");
             (types.String "elem", elem)].

Definition SetDef (elem : types.Value) : types.Value :=
  types.Map [(types.String "$type", types.String "noms.SetDef");
             (types.String "elem", elem)].

Definition MapDef (key value : types.Value) : types.Value :=
  types.Map [(types.String "$type", types.String "noms.MapDef");
             (types.String "key", key); (types.String "value", value)].

Definition StructDef (name : string) (fields : list (string * types.Value)) : types.Value :=
  types.Map ((types.String "$name", types.String name)
             :: (types.String "$type", types.String "noms.StructDef")
             :: map (fun f => (types.String (fst f), snd f)) fields).

Definition entriesOf (v : types.Value) : types.mapData :=
  match v with
  | types.Map m => m
  | _ => []
  end.

(** A struct of two fields of a primitive type. *)
Definition Point : types.Value :=
  StructDef "Point" [("x", types.String "int32"); ("y", types.String "int32")].

(** ** The graph of type definitions *)

Definition isMap (v : types.Value) : bool :=
  match v with
  | types.Map _ => true
  | _ => false
  end.

(** A key that [writeStruct] takes for a field: a string that does not
    begin with the sigil. *)
Definition isFieldKey (k : types.Value) : bool :=
  match k with
  | types.String (String.String c _) => negb (Ascii.eqb c "$")
  | _ => false
  end.

(** A key that [writeStruct] passes over: a string that begins with the
    sigil. *)
Definition isMetaKey (k : types.Value) : bool :=
  match k with
  | types.String (String.String c _) => Ascii.eqb c "$"
  | _ => false
  end.

Definition optList {A : Type} (o : option A) : list A :=
  match o with
  | Some a => [a]
  | None => []
  end.

(** The values of the fields of a struct definition. *)
Definition fieldRefs (m : types.mapData) : list types.Value :=
  map snd (filter (fun kv => isFieldKey (fst kv)) m).

(** The values that the type definition [m] refers to as types: its
    element, its key and value, or the values of its fields. *)
Definition refs (m : types.mapData) : list types.Value :=
  match asString (types.Get (types.NewString "$type") m) with
  | Ok typ =>
      if typ =? "noms.ListDef" then optList (types.Get (types.NewString "elem") m)
      else if typ =? "noms.MapDef" then
        optList (types.Get (types.NewString "key") m)
        ++ optList (types.Get (types.NewString "value") m)
      else if typ =? "noms.SetDef" then optList (types.Get (types.NewString "elem") m)
      else if typ =? "noms.StructDef" then fieldRefs m
      else []
  | Fail _ => []
  end.

(** The type definitions that are not primitive and can be reached from
    the root. *)
Inductive Reachable (root : types.mapData) : types.Value -> Prop :=
| Reachable_root : Reachable root (types.Map root)
| Reachable_ref (m : types.mapData) (c : types.Value) :
    Reachable root (types.Map m) -> In c (refs m) -> isMap c = true ->
    Reachable root c.

Fixpoint depth (v : types.Value) : nat :=
  match v with
  | types.Map m =>
      S ((fix deepest (l : types.mapData) : nat :=
            match l with
            | [] => 0
            | (_, x) :: l' => Nat.max (depth x) (deepest l')
            end) m)
  | _ => 0
  end.

Fixpoint reachN (n : nat) (t : types.Value) : list types.Value :=
  match n, t with
  | S n', types.Map m => t :: flat_map (reachN n') (refs m)
  | _, _ => []
  end.

Definition dedup (l : list types.Value) : types.Set_ :=
  fold_left (fun s v => types.Insert v s) l types.NewSet.

(** The distinct type definitions that are not primitive and can be
    reached from the root, each once. *)
Definition reachable (root : types.mapData) : list types.Value :=
  dedup (reachN (depth (types.Map root)) (types.Map root)).

(** What [writeType] writes for a type definition. *)
Definition rendered (t : types.Value) : list Block :=
  match t with
  | types.Map m => w (state (writeType m (New [])))
  | _ => []
  end.

(** The names of the fields in a run of field blocks, and the names of
    the fields a record declares, in stored order. *)
Definition fieldNames (out : list Block) : list string :=
  flat_map (fun b => match b with
                     | fieldTempl _ _ _ FieldName => [FieldName]
                     | _ => []
                     end) out.

Definition declaredFields (m : types.mapData) : list string :=
  flat_map (fun kv => match fst kv with
                      | types.String sk => if isFieldKey (fst kv) then [sk] else []
                      | _ => []
                      end) m.

(** ** What the properties are stated with *)

(** The four shapes that [writeType] and [getGoStructName] know. *)
Definition typeDefShapes : list string :=
  ["noms.ListDef"; "noms.MapDef"; "noms.SetDef"; "noms.StructDef"].

(** A struct whose fields are declared in the order email, age. *)
Definition User : types.Value :=
  StructDef "User" [("email", types.String "string"); ("age", types.String "int32")].

(** How a method ended, the state left aside. *)
Definition result {A : Type} (o : Outcome A) : Result A :=
  match o with
  | Done a _ => Ok a
  | Panicked p _ => Fail p
  end.

(** [c] writes [out] and ends as [r], whatever the state it starts in. *)
Definition Uniform {A : Type} (c : M A) (out : list Block) (r : Result A) : Prop :=
  forall ng, w (state (c ng)) = w ng ++ out /\ result (c ng) = r.

Definition IsUniform {A : Type} (c : M A) : Prop :=
  exists out r, Uniform c out r.

(** From [ng] to [ng'], [written] stays and [toWrite] gains maps among
    [C] that were in neither set, each once. *)
Definition Step (C : list types.Value) (ng ng' : NG) : Prop :=
  written ng' = written ng /\
  exists added,
    toWrite ng' = toWrite ng ++ added /\ NoDup added /\
    forall x, In x added ->
      In x C /\ isMap x = true /\ ~ In x (written ng) /\ ~ In x (toWrite ng).

(** Whatever the state, [c] makes a [Step] over [C]. *)
Definition Tracks {A : Type} (C : list types.Value) (c : M A) : Prop :=
  forall ng, Step C ng (state (c ng)).

(** How many members of [s] equal [v]. *)
Definition occurrences (v : types.Value) (s : types.Set_) : nat :=
  List.length (filter (types.Equals v) s).

(** No member of [written] is a member of [toWrite]. *)
Definition Disjoint (ng : NG) : Prop :=
  forall x, In x (written ng) -> ~ In x (toWrite ng).

(** Every member of [written] or [toWrite] in [ng] is a member of one of
    them in [ng']. *)
Definition Keeps (ng ng' : NG) : Prop :=
  forall x, In x (written ng) \/ In x (toWrite ng) ->
            In x (written ng') \/ In x (toWrite ng').

(** The state in which the loop of [WriteGo] starts. *)
Definition started (val : types.mapData) (pkg : string) (w0 : list Block) : NG :=
  {| w := w0 ++ [headerTmpl pkg]; written := []; toWrite := [types.Map val] |}.

(** What holds of the generator between two passes of the loop: the sets
    hold no member twice, they are disjoint, their members can be reached
    from the root, and the writer holds [pre] followed by what was
    rendered for the members of [written], in the order they came in. *)
Definition Inv (root : types.mapData) (pre : list Block) (ng : NG) : Prop :=
  NoDup (written ng) /\ NoDup (toWrite ng) /\ Disjoint ng /\
  (forall x, In x (written ng) \/ In x (toWrite ng) -> Reachable root x) /\
  w ng = pre ++ flat_map rendered (written ng).

(** The root is registered, and so is every map that a written definition
    refers to. *)
Definition Closed (root : types.mapData) (ng : NG) : Prop :=
  (In (types.Map root) (written ng) \/ In (types.Map root) (toWrite ng)) /\
  forall m c, In (types.Map m) (written ng) -> In c (refs m) -> isMap c = true ->
              In c (written ng) \/ In c (toWrite ng).

(** The field blocks of struct [sn]. *)
Definition fieldBlockOf (sn : string) (b : Block) : Prop :=
  exists ft fn, b = fieldTempl sn ft (strings.Title fn) fn.

(** The last three characters of a name, last first. *)
Definition ending (s : string) : list ascii := firstn 3 (rev (list_ascii_of_string s)).

(** The ending of the name of a list, map or set definition. *)
Definition endingOf (typ : string) : list ascii :=
  if typ =? "noms.ListDef" then ["t"; "s"; "i"]%char
  else if typ =? "noms.MapDef" then ["p"; "a"; "M"]%char
  else if typ =? "noms.SetDef" then ["t"; "e"; "S"]%char
  else [].

(** The shapes whose names are derived from the names of their parts. *)
Definition isDerived (typ : string) : bool :=
  (typ =? "noms.ListDef") || (typ =? "noms.MapDef") || (typ =? "noms.SetDef").

(** A value that [addType] takes for a type definition: a string or a
    map; nil and values of other kinds are not. *)
Definition isTypeDef (val : option types.Value) : bool :=
  match val with
  | Some (types.String _) => true
  | Some (types.Map _) => true
  | _ => false
  end.

Definition isOk {A : Type} (r : Result A) : bool :=
  match r with
  | Ok _ => true
  | Fail _ => false
  end.

(** An entry of a struct that [writeStruct] gets past: metadata, or a
    field whose type has a name. *)
Definition entryOk (kv : types.Value * types.Value) : bool :=
  isMetaKey (fst kv)
  || (isFieldKey (fst kv) && isOk (getGoTypeName (Some (snd kv)))).

(** A type definition that [writeType] writes without a panic. *)
Definition writable (t : types.Value) : bool :=
  match t with
  | types.Map m => isOk (result (writeType m (New [])))
  | _ => false
  end.

(** The struct names of the blocks that open a type (the blocks of the
    list, map, set and struct templates), in order. *)
Definition typeBlockNames (out : list Block) : list string :=
  flat_map (fun b => match b with
                     | listTempl StructName _ => [StructName]
                     | mapTempl StructName _ _ => [StructName]
                     | setTempl StructName _ => [StructName]
                     | structTempl StructName => [StructName]
                     | _ => []
                     end) out.

(** The block that [writeList] or [writeSet] writes. *)
Definition elemBlock (typ StructName ElemName : string) : Block :=
  if typ =? "noms.ListDef" then listTempl StructName ElemName
  else setTempl StructName ElemName.

(** A string of ASCII characters only: the strings on which the model of
    [strings.Title] is Go's. *)
Definition isASCII (s : string) : bool :=
  forallb (fun c => (nat_of_ascii c <? 128)%nat) (list_ascii_of_string s).

(** A generator in the middle of a run: one definition written, two
    waiting. *)
Definition halfway (pkg : string) : NG :=
  {| w := [headerTmpl pkg; listTempl "PointList" "Point"];
     written := [ListDef Point];
     toWrite := [Point; SetDef (ListDef Point)] |}.

(** How a run ended, the state left aside. *)
Definition result_of_run (r : option (Outcome unit)) : option (Result unit) :=
  option_map result r.

(** Induction on values, through the entries of maps. *)
Section ValueInduction.

Variable P : types.Value -> Prop.
Hypothesis P_String : forall s, P (types.String s).
Hypothesis P_Map :
  forall m, Forall (fun kv => P (fst kv) /\ P (snd kv)) m -> P (types.Map m).
Hypothesis P_Other : forall kind, P (types.Other kind).

Fixpoint Value_induction (v : types.Value) : P v :=
  match v with
  | types.String s => P_String s
  | types.Map m =>
      P_Map m
        ((fix entries (l : list (types.Value * types.Value)) :
            Forall (fun kv => P (fst kv) /\ P (snd kv)) l :=
            match l with
            | [] => Forall_nil _
            | kv :: l' =>
                Forall_cons kv
                  (conj (Value_induction (fst kv)) (Value_induction (snd kv)))
                  (entries l')
            end) m)
  | types.Other kind => P_Other kind
  end.

End ValueInduction.

(** * Properties *)

(** ** Values and sets *)

Lemma Equals_eq (a b : types.Value) : types.Equals a b = true <-> a = b.
Proof.
  revert b. induction a as [s | m IH | n] using Value_induction; intros [t | m' | n'];
    simpl; try (split; [discriminate | congruence]).
  - rewrite String.eqb_eq. split; congruence.
  - revert m'. induction IH as [| [k v] l [IHk IHv] _ IHl]; intros [| [k' v'] l'];
      try (split; [discriminate | congruence]); [tauto |].
    simpl in IHk, IHv. rewrite !andb_true_iff, IHk, IHv.
    split.
    + intros [[-> ->] H]. apply IHl in H. congruence.
    + intros H. injection H as -> -> <-. repeat split. apply IHl. reflexivity.
  - rewrite Nat.eqb_eq. split; congruence.
Qed.

Lemma Equals_refl (a : types.Value) : types.Equals a a = true.
Proof. apply Equals_eq. reflexivity. Qed.

Lemma Equals_false (a b : types.Value) : types.Equals a b = false <-> a <> b.
Proof.
  rewrite <- Equals_eq. destruct (types.Equals a b); split; congruence.
Qed.

Lemma Has_In (v : types.Value) (s : types.Set_) : types.Has v s = true <-> In v s.
Proof.
  unfold types.Has. rewrite existsb_exists. split.
  - intros [x [Hx E]]. apply Equals_eq in E. subst. exact Hx.
  - intros H. exists v. split; [exact H | apply Equals_refl].
Qed.

Lemma Has_not_In (v : types.Value) (s : types.Set_) : types.Has v s = false <-> ~ In v s.
Proof.
  rewrite <- Has_In. destruct (types.Has v s); split; congruence.
Qed.

Lemma In_Insert (x v : types.Value) (s : types.Set_) :
  In x (types.Insert v s) <-> x = v \/ In x s.
Proof.
  unfold types.Insert. destruct (types.Has v s) eqn:E.
  - apply Has_In in E. split; [tauto | intros [-> | H]; assumption].
  - rewrite in_app_iff. simpl. split; intros; intuition congruence.
Qed.

Lemma Insert_fresh (v : types.Value) (s : types.Set_) :
  ~ In v s -> types.Insert v s = s ++ [v].
Proof.
  intros H. apply Has_not_In in H. unfold types.Insert. rewrite H. reflexivity.
Qed.

Lemma Insert_old (v : types.Value) (s : types.Set_) :
  In v s -> types.Insert v s = s.
Proof.
  intros H. apply Has_In in H. unfold types.Insert. rewrite H. reflexivity.
Qed.

Lemma NoDup_snoc (v : types.Value) (s : list types.Value) :
  NoDup s -> ~ In v s -> NoDup (s ++ [v]).
Proof.
  intros Hs Hv. apply NoDup_app; [exact Hs | constructor; [intros [] | constructor] |].
  intros x Hx [<- | []]. exact (Hv Hx).
Qed.

Lemma NoDup_Insert (v : types.Value) (s : types.Set_) :
  NoDup s -> NoDup (types.Insert v s).
Proof.
  intros Hs. unfold types.Insert. destruct (types.Has v s) eqn:E; [exact Hs |].
  apply NoDup_snoc; [exact Hs | apply Has_not_In; exact E].
Qed.

Lemma In_Remove (x v : types.Value) (s : types.Set_) :
  In x (types.Remove v s) <-> In x s /\ x <> v.
Proof.
  unfold types.Remove. rewrite filter_In, negb_true_iff, Equals_false.
  split; intros [H1 H2]; split; congruence.
Qed.

Lemma NoDup_Remove (v : types.Value) (s : types.Set_) :
  NoDup s -> NoDup (types.Remove v s).
Proof. apply NoDup_filter. Qed.

Lemma Empty_nil (s : types.Set_) : types.Empty s = true <-> s = [].
Proof. destruct s; simpl; split; congruence. Qed.

(** ** The name resolver *)

Lemma callOnGet_Get (key : types.Value) (m : types.mapData) :
  callOnGet getGoStructName_val key m = getGoStructName (types.Get key m).
Proof.
  induction m as [| [k v] m IH]; simpl; [reflexivity |].
  destruct (types.Equals k key); [reflexivity | exact IH].
Qed.

(** The equation of [getGoStructName] on a map, as the source has it. *)
Lemma getGoStructName_Map (m : types.mapData) :
  getGoStructName (Some (types.Map m)) =
  rbind (asString (types.Get (types.NewString "$type") m)) (fun typ =>
  if typ =? "noms.ListDef" then
    rbind (getGoStructName (types.Get (types.NewString "elem") m)) (fun e =>
    Ok (e ++ "List")%string)
  else if typ =? "noms.MapDef" then
    rbind (getGoStructName (types.Get (types.NewString "key") m)) (fun k =>
    rbind (getGoStructName (types.Get (types.NewString "value") m)) (fun v =>
    Ok (k ++ v ++ "Map")%string))
  else if typ =? "noms.SetDef" then
    rbind (getGoStructName (types.Get (types.NewString "elem") m)) (fun e =>
    Ok (e ++ "Set")%string)
  else if typ =? "noms.StructDef" then
    asString (types.Get (types.NewString "$name") m)
  else Fail (UnexpectedTypeDefStruct (Some (types.Map m)))).
Proof.
  cbn [getGoStructName getGoStructName_val]. rewrite !callOnGet_Get. reflexivity.
Qed.

Lemma isNomsTypeName_In (name : string) :
  isNomsTypeName name = true <-> In name nomsTypeNames.
Proof.
  unfold isNomsTypeName. rewrite existsb_exists. split.
  - intros [x [Hx E]]. apply String.eqb_eq in E. subst. exact Hx.
  - intros H. exists name. split; [exact H | apply String.eqb_refl].
Qed.

Lemma getGoStructName_String (name : string) :
  getGoStructName (Some (types.String name)) =
  if isNomsTypeName name then Ok (strings.Title name)
  else Fail (UnexpectedNomsTypeName name).
Proof. reflexivity. Qed.

Lemma getGoStructName_Equals (a b : types.Value) :
  types.Equals a b = true -> getGoStructName (Some a) = getGoStructName (Some b).
Proof. intros H. apply Equals_eq in H. subst. reflexivity. Qed.

(** C2 (as amended: the worked examples with the names the code gives the
    primitives): the resolver is a function of the type definition alone
    and follows the five rules.  A recognised primitive name maps to its
    title-cased form, so int32 gives Int32; a list definition maps to the
    name of its element followed by List; a map definition to the names of
    its key and its value followed by Map; a set definition to the name of
    its element followed by Set; a struct definition to its declared $name
    as it stands.  Structurally equal definitions get the same name.  A
    list of int32 is Int32List, a map from string to bool is StringBoolMap,
    a set of string is StringSet, a struct declared User is User. *)
Theorem getGoStructName_rules :
  (forall name, isNomsTypeName name = true ->
     getGoStructName (Some (types.String name)) = Ok (strings.Title name))
  /\ getGoStructName (Some (types.String "int32")) = Ok "Int32"
  /\ (forall m e,
        types.Get (types.NewString "$type") m = Some (types.String "noms.ListDef") ->
        getGoStructName (types.Get (types.NewString "elem") m) = Ok e ->
        getGoStructName (Some (types.Map m)) = Ok (e ++ "List")%string)
  /\ (forall m k v,
        types.Get (types.NewString "$type") m = Some (types.String "noms.MapDef") ->
        getGoStructName (types.Get (types.NewString "key") m) = Ok k ->
        getGoStructName (types.Get (types.NewString "value") m) = Ok v ->
        getGoStructName (Some (types.Map m)) = Ok (k ++ v ++ "Map")%string)
  /\ (forall m e,
        types.Get (types.NewString "$type") m = Some (types.String "noms.SetDef") ->
        getGoStructName (types.Get (types.NewString "elem") m) = Ok e ->
        getGoStructName (Some (types.Map m)) = Ok (e ++ "Set")%string)
  /\ (forall m name,
        types.Get (types.NewString "$type") m = Some (types.String "noms.StructDef") ->
        types.Get (types.NewString "$name") m = Some (types.String name) ->
        getGoStructName (Some (types.Map m)) = Ok name)
  /\ (forall a b, types.Equals a b = true ->
        getGoStructName (Some a) = getGoStructName (Some b))
  /\ getGoStructName (Some (ListDef (types.String "int32"))) = Ok "Int32List"
  /\ getGoStructName (Some (MapDef (types.String "string") (types.String "bool")))
     = Ok "StringBoolMap"
  /\ getGoStructName (Some (SetDef (types.String "string"))) = Ok "StringSet"
  /\ (forall fields, getGoStructName (Some (StructDef "User" fields)) = Ok "User").
Proof.
  repeat split; try reflexivity.
  - intros name H. rewrite getGoStructName_String, H. reflexivity.
  - intros m e Ht He. rewrite getGoStructName_Map, Ht. simpl. rewrite He. reflexivity.
  - intros m k v Ht Hk Hv. rewrite getGoStructName_Map, Ht. simpl.
    rewrite Hk, Hv. reflexivity.
  - intros m e Ht He. rewrite getGoStructName_Map, Ht. simpl. rewrite He. reflexivity.
  - intros m name Ht Hn. rewrite getGoStructName_Map, Ht. simpl. rewrite Hn. reflexivity.
  - apply getGoStructName_Equals.
Qed.

Lemma getGoStructName_rules_witness :
  getGoStructName (Some (ListDef (SetDef (types.String "uint64")))) = Ok "Uint64SetList"
  /\ getGoStructName (Some (SetDef Point)) = getGoStructName (Some (SetDef Point)).
Proof.
  destruct getGoStructName_rules as (_ & _ & HList & _ & _ & _ & HEq & _).
  split.
  - apply (HList (entriesOf (ListDef (SetDef (types.String "uint64")))) "Uint64Set");
      reflexivity.
  - apply (HEq (SetDef Point) (SetDef Point)). reflexivity.
Defined.

Ltac each_name H :=
  apply isNomsTypeName_In in H; unfold nomsTypeNames in H; simpl in H;
  repeat (destruct H as [<- | H]); [.. | contradiction].

(** C2, as stated, fails on the examples over text and boolean: there are
    no primitives of these names, and over the primitives there are, no map
    definition is named TextBooleanMap and no set definition TextSet. *)
Lemma worked_examples_not_on_code :
  getGoStructName (Some (types.String "text")) = Fail (UnexpectedNomsTypeName "text")
  /\ getGoStructName (Some (types.String "boolean")) = Fail (UnexpectedNomsTypeName "boolean")
  /\ getGoStructName (Some (MapDef (types.String "string") (types.String "bool")))
     <> Ok "TextBooleanMap"
  /\ getGoStructName (Some (SetDef (types.String "string"))) <> Ok "TextSet"
  /\ (forall k v, getGoStructName (Some (MapDef (types.String k) (types.String v)))
                  <> Ok "TextBooleanMap")
  /\ (forall e, getGoStructName (Some (SetDef (types.String e))) <> Ok "TextSet").
Proof.
  repeat split; try discriminate.
  - intros k v. unfold MapDef. rewrite getGoStructName_Map. cbn -[isNomsTypeName].
    destruct (isNomsTypeName k) eqn:Hk; [| discriminate].
    destruct (isNomsTypeName v) eqn:Hv; [| simpl; discriminate].
    each_name Hk; each_name Hv; discriminate.
  - intros e. unfold SetDef. rewrite getGoStructName_Map. cbn -[isNomsTypeName].
    destruct (isNomsTypeName e) eqn:He; [| discriminate].
    each_name He; discriminate.
Qed.

(** *** Names that meet, and names that cannot *)

Lemma list_ascii_of_append (a b : string) :
  list_ascii_of_string (a ++ b)%string = list_ascii_of_string a ++ list_ascii_of_string b.
Proof. induction a as [| c a IH]; simpl; [reflexivity | rewrite IH; reflexivity]. Qed.

Lemma list_ascii_inj (a b : string) :
  list_ascii_of_string a = list_ascii_of_string b -> a = b.
Proof.
  intros H. rewrite <- (string_of_list_ascii_of_string a), H.
  apply string_of_list_ascii_of_string.
Qed.

Lemma append_inv_tail (a b s : string) : (a ++ s)%string = (b ++ s)%string -> a = b.
Proof.
  intros H. apply (f_equal list_ascii_of_string) in H.
  rewrite !list_ascii_of_append in H. apply app_inv_tail in H.
  apply list_ascii_inj. exact H.
Qed.

Lemma ending_append3 (a : string) (x y z : ascii) :
  ending (a ++ String.String x (String.String y (String.String z EmptyString)))%string
  = [z; y; x].
Proof.
  unfold ending. rewrite list_ascii_of_append, rev_app_distr. reflexivity.
Qed.

Lemma ending_List (a : string) : ending (a ++ "List")%string = ["t"; "s"; "i"]%char.
Proof.
  change "List" with ("L" ++ "ist")%string.
  unfold ending. rewrite !list_ascii_of_append, !rev_app_distr. reflexivity.
Qed.

Lemma ending_Set (a : string) : ending (a ++ "Set")%string = ["t"; "e"; "S"]%char.
Proof. apply ending_append3. Qed.

Lemma ending_Map (a b : string) : ending (a ++ b ++ "Map")%string = ["p"; "a"; "M"]%char.
Proof.
  unfold ending. rewrite !list_ascii_of_append, !rev_app_distr. reflexivity.
Qed.

Lemma derived_name_ending (m : types.mapData) (typ n : string) :
  types.Get (types.NewString "$type") m = Some (types.String typ) ->
  isDerived typ = true ->
  getGoStructName (Some (types.Map m)) = Ok n ->
  ending n = endingOf typ.
Proof.
  intros Ht Hd Hn. rewrite getGoStructName_Map, Ht in Hn. simpl in Hn.
  unfold isDerived in Hd. unfold endingOf.
  destruct (typ =? "noms.ListDef").
  { destruct (getGoStructName (types.Get (types.NewString "elem") m)); [| discriminate].
    injection Hn as <-. apply ending_List. }
  destruct (typ =? "noms.MapDef").
  { destruct (getGoStructName (types.Get (types.NewString "key") m)); [| discriminate].
    simpl in Hn.
    destruct (getGoStructName (types.Get (types.NewString "value") m)); [| discriminate].
    injection Hn as <-. apply ending_Map. }
  destruct (typ =? "noms.SetDef"); [| discriminate].
  destruct (getGoStructName (types.Get (types.NewString "elem") m)); [| discriminate].
  injection Hn as <-. apply ending_Set.
Qed.

Lemma endingOf_inj (typ typ' : string) :
  isDerived typ = true -> isDerived typ' = true ->
  endingOf typ = endingOf typ' -> typ = typ'.
Proof.
  unfold isDerived, endingOf. intros H H' E.
  destruct (typ =? "noms.ListDef") eqn:E1; destruct (typ' =? "noms.ListDef") eqn:E1';
  destruct (typ =? "noms.MapDef") eqn:E2; destruct (typ' =? "noms.MapDef") eqn:E2';
  destruct (typ =? "noms.SetDef") eqn:E3; destruct (typ' =? "noms.SetDef") eqn:E3';
    try discriminate;
    repeat match goal with
           | H : (_ =? _) = true |- _ => apply String.eqb_eq in H
           end; congruence.
Qed.

(** C5 (as amended): names are a function of the type definition alone,
    and they separate definitions only so far.  Two recognised primitives
    of different names get different names; two list definitions, or two
    set definitions, that get the same name have elements of the same
    name; and among list, map and set definitions, two of different shapes
    never get the same name.  Nothing is promised about a struct
    definition, whose declared name is taken as it stands, nor about two
    map definitions, whose key and value names are joined without a mark
    between them. *)
Theorem names_separate_so_far :
  (forall p q, isNomsTypeName p = true -> isNomsTypeName q = true ->
     getGoStructName (Some (types.String p)) = getGoStructName (Some (types.String q)) ->
     p = q)
  /\ (forall m m' typ n,
        typ = "noms.ListDef" \/ typ = "noms.SetDef" ->
        types.Get (types.NewString "$type") m = Some (types.String typ) ->
        types.Get (types.NewString "$type") m' = Some (types.String typ) ->
        getGoStructName (Some (types.Map m)) = Ok n ->
        getGoStructName (Some (types.Map m')) = Ok n ->
        getGoStructName (types.Get (types.NewString "elem") m)
        = getGoStructName (types.Get (types.NewString "elem") m'))
  /\ (forall m m' typ typ' n,
        types.Get (types.NewString "$type") m = Some (types.String typ) ->
        types.Get (types.NewString "$type") m' = Some (types.String typ') ->
        isDerived typ = true -> isDerived typ' = true -> typ <> typ' ->
        getGoStructName (Some (types.Map m)) = Ok n ->
        getGoStructName (Some (types.Map m')) <> Ok n).
Proof.
  split; [| split].
  - intros p q Hp Hq. rewrite !getGoStructName_String, Hp, Hq.
    each_name Hp; each_name Hq; solve [reflexivity | discriminate].
  - intros m m' typ n Htyp Ht Ht' Hn Hn'.
    rewrite getGoStructName_Map, Ht in Hn. rewrite getGoStructName_Map, Ht' in Hn'.
    destruct (getGoStructName (types.Get (types.NewString "elem") m)) as [e | p];
      destruct (getGoStructName (types.Get (types.NewString "elem") m')) as [e' | p'];
      destruct Htyp as [-> | ->]; simpl in Hn, Hn'; try discriminate;
      injection Hn as <-; injection Hn' as Hn'; apply append_inv_tail in Hn';
      congruence.
  - intros m m' typ typ' n Ht Ht' Hd Hd' Hne Hn Hn'.
    apply Hne, endingOf_inj; [assumption | assumption |].
    rewrite <- (derived_name_ending m typ n Ht Hd Hn).
    apply (derived_name_ending m' typ' n Ht' Hd' Hn').
Qed.

Lemma names_separate_so_far_witness :
  getGoStructName (Some (ListDef (types.String "int32")))
  <> Ok "Int32Set"
  /\ getGoStructName (Some (types.String "int32"))
     = getGoStructName (Some (types.String "int32")).
Proof.
  destruct names_separate_so_far as (_ & HElem & HShape).
  split.
  - apply (HShape (entriesOf (SetDef (types.String "int32")))
                  (entriesOf (ListDef (types.String "int32")))
                  "noms.SetDef" "noms.ListDef" "Int32Set");
      solve [reflexivity | discriminate].
  - apply (HElem (entriesOf (ListDef (types.String "int32")))
                 (entriesOf (ListDef (types.String "int32")))
                 "noms.ListDef" "Int32List"); solve [reflexivity | left; reflexivity].
Defined.

(** C5, as stated, fails: a list of int32 and a struct declared Int32List
    are different definitions of one name, and one run emits both under
    it; so are a map from int32 to sets of set and a map from sets of
    int32 to set, with no struct involved. *)
Lemma distinct_definitions_same_name :
  ListDef (types.String "int32") <> StructDef "Int32List" []
  /\ getGoStructName (Some (ListDef (types.String "int32"))) = Ok "Int32List"
  /\ getGoStructName (Some (StructDef "Int32List" [])) = Ok "Int32List"
  /\ MapDef (types.String "int32") (SetDef (types.String "set"))
     <> MapDef (SetDef (types.String "int32")) (types.String "set")
  /\ getGoStructName (Some (MapDef (types.String "int32") (SetDef (types.String "set"))))
     = Ok "Int32SetSetMap"
  /\ getGoStructName (Some (MapDef (SetDef (types.String "int32")) (types.String "set")))
     = Ok "Int32SetSetMap"
  /\ option_map (fun o => w (state o))
       (WriteGo AnyFirst 3
          (entriesOf (MapDef (ListDef (types.String "int32")) (StructDef "Int32List" [])))
          "main" (New []))
     = Some [headerTmpl "main";
             mapTempl "Int32ListInt32ListMap" "Int32List" "Int32List";
             listTempl "Int32List" "types.Int32";
             structTempl "Int32List"].
Proof. repeat split; solve [discriminate | reflexivity]. Qed.

(** ** The monad of the generator *)

Lemma bind_Done {A B : Type} (c : M A) (k : A -> M B) (ng ng' : NG) (b : B) :
  bind c k ng = Done b ng' ->
  exists a ng1, c ng = Done a ng1 /\ k a ng1 = Done b ng'.
Proof.
  unfold bind. destruct (c ng) as [a ng1 | p ng1]; [| discriminate].
  intros H. exists a, ng1. split; [reflexivity | exact H].
Qed.

Lemma lift_Done {A : Type} (r : Result A) (ng ng' : NG) (a : A) :
  lift r ng = Done a ng' -> r = Ok a /\ ng' = ng.
Proof.
  unfold lift. destruct r; [| discriminate]. intros H. injection H as -> ->. tauto.
Qed.

Lemma state_lift {A : Type} (r : Result A) (ng : NG) : state (lift r ng) = ng.
Proof. destruct r; reflexivity. Qed.

(** *** What a method writes does not depend on the sets *)

Lemma IsUniform_ret {A : Type} (a : A) : IsUniform (ret a).
Proof. exists [], (Ok a). intros ng. simpl. rewrite app_nil_r. tauto. Qed.

Lemma IsUniform_lift {A : Type} (r : Result A) : IsUniform (lift r).
Proof.
  exists [], r. intros ng. destruct r; simpl; rewrite app_nil_r; tauto.
Qed.

Lemma IsUniform_Execute (b : Block) : IsUniform (Execute b).
Proof. exists [b], (Ok tt). intros ng. simpl. tauto. Qed.

Lemma IsUniform_addType (val : option types.Value) : IsUniform (addType val).
Proof.
  destruct val as [[s | m | n] |]; try apply IsUniform_ret; try apply IsUniform_lift.
  exists [], (Ok tt). intros ng. simpl.
  destruct (types.Has (types.Map m) (written ng) || types.Has (types.Map m) (toWrite ng));
    simpl; rewrite app_nil_r; tauto.
Qed.

Lemma IsUniform_bind {A B : Type} (c : M A) (k : A -> M B) :
  IsUniform c -> (forall a, IsUniform (k a)) -> IsUniform (bind c k).
Proof.
  intros (out & r & Hc) Hk. destruct r as [a | p].
  - destruct (Hk a) as (out' & r' & Hka). exists (out ++ out'), r'.
    intros ng. unfold bind. destruct (Hc ng) as [Hw Hr].
    destruct (c ng) as [a' ng1 | p ng1]; simpl in Hw, Hr; [| discriminate].
    injection Hr as ->. destruct (Hka ng1) as [Hw' Hr'].
    rewrite Hw', Hw, app_assoc. tauto.
  - exists out, (Fail p). intros ng. unfold bind. destruct (Hc ng) as [Hw Hr].
    destruct (c ng) as [a' ng1 | p' ng1]; simpl in Hw, Hr; [discriminate |].
    injection Hr as ->. simpl. tauto.
Qed.

Lemma IsUniform_Iter (cb : types.Value -> types.Value -> M unit) (m : types.mapData) :
  (forall k v, IsUniform (cb k v)) -> IsUniform (Iter cb m).
Proof.
  intros Hcb. induction m as [| [k v] m IH]; simpl.
  - apply IsUniform_ret.
  - apply IsUniform_bind; [apply Hcb | intros _; exact IH].
Qed.

Create HintDb uniform.

Ltac uniform :=
  repeat first
    [ apply IsUniform_ret | apply IsUniform_lift | apply IsUniform_Execute
    | apply IsUniform_addType | solve [auto with uniform]
    | apply IsUniform_Iter; intros
    | apply IsUniform_bind; [| intros] ].

Lemma IsUniform_writeField (sn fn : string) (typeDef : option types.Value) :
  IsUniform (writeField sn fn typeDef).
Proof. unfold writeField. uniform. Qed.

Lemma IsUniform_writeStruct_func (sn : string) (k v : types.Value) :
  IsUniform (writeStruct_func sn k v).
Proof.
  unfold writeStruct_func. uniform.
  match goal with |- IsUniform (if ?b then _ else _) => destruct b end;
    [apply IsUniform_writeField | apply IsUniform_ret].
Qed.

#[local] Hint Resolve IsUniform_writeField IsUniform_writeStruct_func : uniform.

Lemma IsUniform_writeType (m : types.mapData) : IsUniform (writeType m).
Proof.
  unfold writeType. apply IsUniform_bind; [apply IsUniform_lift |]. intros typ.
  repeat match goal with |- IsUniform (if ?b then _ else _) => destruct b end.
  - unfold writeList. uniform.
  - unfold writeMap. uniform.
  - unfold writeSet. uniform.
  - unfold writeStruct. uniform.
  - apply IsUniform_lift.
Qed.

(** Whatever the state, [writeType] appends what [rendered] tells. *)
Lemma writeType_rendered (m : types.mapData) (ng : NG) :
  w (state (writeType m ng)) = w ng ++ rendered (types.Map m).
Proof.
  destruct (IsUniform_writeType m) as (out & r & H).
  unfold rendered. rewrite (proj1 (H (New []))). simpl. apply (H ng).
Qed.

(** *** What a method does to the sets *)

Lemma Step_refl (C : list types.Value) (ng ng' : NG) :
  written ng' = written ng -> toWrite ng' = toWrite ng -> Step C ng ng'.
Proof.
  intros Hw Ht. split; [exact Hw |]. exists []. rewrite app_nil_r.
  repeat split; [exact Ht | constructor | | | |]; contradiction.
Qed.

Lemma Step_trans (C : list types.Value) (a b c : NG) :
  Step C a b -> Step C b c -> Step C a c.
Proof.
  intros [Hw1 (add1 & Ht1 & Hn1 & H1)] [Hw2 (add2 & Ht2 & Hn2 & H2)].
  split; [congruence |]. exists (add1 ++ add2).
  split; [rewrite Ht2, Ht1, app_assoc; reflexivity |]. split.
  - apply NoDup_app; [assumption | assumption |].
    intros x Hx1 Hx2. destruct (H2 x Hx2) as (_ & _ & _ & Hnot).
    apply Hnot. rewrite Ht1. apply in_or_app. right. exact Hx1.
  - intros x Hx. apply in_app_or in Hx. destruct Hx as [Hx | Hx].
    + apply H1. exact Hx.
    + destruct (H2 x Hx) as (HC & HM & Hnw & Hnt). rewrite Hw1 in Hnw.
      repeat split; try assumption.
      intros Hin. apply Hnt. rewrite Ht1. apply in_or_app. left. exact Hin.
Qed.

Lemma Step_incl (C C' : list types.Value) (ng ng' : NG) :
  incl C C' -> Step C ng ng' -> Step C' ng ng'.
Proof.
  intros HCC [Hw (added & Ht & Hn & H)]. split; [exact Hw |].
  exists added. repeat split; try assumption; try apply (H x H0).
  apply HCC. apply (H x H0).
Qed.

Lemma Step_covers (C : list types.Value) (ng ng' : NG) (x : types.Value) :
  Step C ng ng' ->
  In x (written ng) \/ In x (toWrite ng) -> In x (written ng') \/ In x (toWrite ng').
Proof.
  intros [Hw (added & Ht & _)] [H | H].
  - left. rewrite Hw. exact H.
  - right. rewrite Ht. apply in_or_app. left. exact H.
Qed.

Lemma Tracks_incl {A : Type} (C C' : list types.Value) (c : M A) :
  incl C C' -> Tracks C c -> Tracks C' c.
Proof. intros HCC H ng. apply (Step_incl C C'); [exact HCC | apply H]. Qed.

Lemma Tracks_Done {A : Type} (C : list types.Value) (c : M A) (ng ng' : NG) (a : A) :
  Tracks C c -> c ng = Done a ng' -> Step C ng ng'.
Proof. intros H E. specialize (H ng). rewrite E in H. exact H. Qed.

Lemma Tracks_ret {A : Type} (C : list types.Value) (a : A) : Tracks C (ret a).
Proof. intros ng. apply Step_refl; reflexivity. Qed.

Lemma Tracks_lift {A : Type} (C : list types.Value) (r : Result A) : Tracks C (lift r).
Proof. intros ng. rewrite state_lift. apply Step_refl; reflexivity. Qed.

Lemma Tracks_Execute (C : list types.Value) (b : Block) : Tracks C (Execute b).
Proof. intros ng. apply Step_refl; reflexivity. Qed.

Lemma Tracks_bind {A B : Type} (C : list types.Value) (c : M A) (k : A -> M B) :
  Tracks C c -> (forall a, Tracks C (k a)) -> Tracks C (bind c k).
Proof.
  intros Hc Hk ng. unfold bind. specialize (Hc ng).
  destruct (c ng) as [a ng1 | p ng1]; simpl in Hc.
  - apply (Step_trans C ng ng1); [exact Hc | apply Hk].
  - exact Hc.
Qed.

Lemma Tracks_addType (val : option types.Value) : Tracks (optList val) (addType val).
Proof.
  destruct val as [[s | m | n] |]; try apply Tracks_ret; try apply Tracks_lift.
  intros ng. simpl.
  destruct (types.Has (types.Map m) (written ng)) eqn:Ew; simpl;
    [apply Step_refl; reflexivity |].
  destruct (types.Has (types.Map m) (toWrite ng)) eqn:Et; simpl;
    [apply Step_refl; reflexivity |].
  apply Has_not_In in Ew. apply Has_not_In in Et.
  split; [reflexivity |]. exists [types.Map m]. simpl.
  split; [apply Insert_fresh; exact Et |].
  split; [constructor; [intros [] | constructor] |].
  intros x [<- | []]. repeat split; try assumption. left. reflexivity.
Qed.

(** When [addType] returns, a map it was given is in one of the sets. *)
Lemma addType_Done (val : option types.Value) (ng ng' : NG) (x : types.Value) :
  addType val ng = Done tt ng' -> In x (optList val) -> isMap x = true ->
  In x (written ng') \/ In x (toWrite ng').
Proof.
  destruct val as [[s | m | n] |]; simpl; intros H Hx Hm;
    try contradiction; destruct Hx as [<- | []]; try discriminate.
  destruct (types.Has (types.Map m) (written ng)) eqn:Ew; simpl in H.
  { injection H as <-. left. apply Has_In. exact Ew. }
  destruct (types.Has (types.Map m) (toWrite ng)) eqn:Et; simpl in H.
  { injection H as <-. right. apply Has_In. exact Et. }
  injection H as <-. right. simpl. apply In_Insert. left. reflexivity.
Qed.

Ltac tracks :=
  repeat first
    [ apply Tracks_ret | apply Tracks_lift | apply Tracks_Execute
    | apply Tracks_bind; [| intros] ].

Lemma Tracks_writeField (sn fn : string) (typeDef : option types.Value) :
  Tracks (optList typeDef) (writeField sn fn typeDef).
Proof.
  unfold writeField. apply Tracks_bind; [apply Tracks_addType | intros; tracks].
Qed.

Lemma writeStruct_func_field (sn : string) (k v : types.Value) :
  isFieldKey k = true ->
  exists sk, k = types.String sk /\ writeStruct_func sn k v = writeField sn sk (Some v).
Proof.
  destruct k as [[| c s] | m | n]; simpl; try discriminate.
  intros H. exists (String.String c s). split; [reflexivity |].
  unfold writeStruct_func, bind. simpl. rewrite H. reflexivity.
Qed.

Lemma writeStruct_func_not_field (sn : string) (k v : types.Value) (ng : NG) :
  isFieldKey k = false -> state (writeStruct_func sn k v ng) = ng.
Proof.
  destruct k as [[| c s] | m | n]; simpl; try reflexivity.
  intros H. unfold writeStruct_func, bind. simpl. rewrite H. reflexivity.
Qed.

Lemma Tracks_writeStruct_func (sn : string) (k v : types.Value) :
  Tracks (if isFieldKey k then [v] else []) (writeStruct_func sn k v).
Proof.
  destruct (isFieldKey k) eqn:E.
  - destruct (writeStruct_func_field sn k v E) as (sk & _ & ->).
    apply (Tracks_writeField sn sk (Some v)).
  - intros ng. rewrite writeStruct_func_not_field by exact E.
    apply Step_refl; reflexivity.
Qed.

Lemma Tracks_Iter (sn : string) (m : types.mapData) :
  Tracks (fieldRefs m) (Iter (writeStruct_func sn) m).
Proof.
  induction m as [| [k v] m IH]; simpl; [apply Tracks_ret |].
  apply Tracks_bind.
  - apply (Tracks_incl (if isFieldKey k then [v] else []));
      [| apply Tracks_writeStruct_func].
    unfold fieldRefs. simpl. destruct (isFieldKey k); intros x Hx; [| contradiction].
    destruct Hx as [<- | []]. left. reflexivity.
  - intros _. apply (Tracks_incl (fieldRefs m)); [| exact IH].
    unfold fieldRefs. simpl. destruct (isFieldKey k); intros x Hx; [right |]; exact Hx.
Qed.

Lemma Tracks_writeList (m : types.mapData) :
  Tracks (optList (types.Get (types.NewString "elem") m)) (writeList m).
Proof.
  unfold writeList. apply Tracks_bind; [apply Tracks_addType | intros; tracks].
Qed.

Lemma Tracks_writeSet (m : types.mapData) :
  Tracks (optList (types.Get (types.NewString "elem") m)) (writeSet m).
Proof.
  unfold writeSet. apply Tracks_bind; [apply Tracks_addType | intros; tracks].
Qed.

Lemma Tracks_writeMap (m : types.mapData) :
  Tracks (optList (types.Get (types.NewString "key") m)
          ++ optList (types.Get (types.NewString "value") m)) (writeMap m).
Proof.
  unfold writeMap. apply Tracks_bind; [| intros _; apply Tracks_bind; [| intros; tracks]].
  - eapply Tracks_incl; [| apply Tracks_addType]. apply incl_appl, incl_refl.
  - eapply Tracks_incl; [| apply Tracks_addType]. apply incl_appr, incl_refl.
Qed.

Lemma Tracks_writeStruct (m : types.mapData) : Tracks (fieldRefs m) (writeStruct m).
Proof.
  unfold writeStruct. tracks. apply Tracks_Iter.
Qed.

Lemma Tracks_writeType (m : types.mapData) : Tracks (refs m) (writeType m).
Proof.
  intros ng. unfold writeType, refs.
  destruct (asString (types.Get (types.NewString "$type") m)) as [typ | p];
    unfold bind, lift; [| apply Step_refl; reflexivity].
  destruct (typ =? "noms.ListDef"); [apply Tracks_writeList |].
  destruct (typ =? "noms.MapDef"); [apply Tracks_writeMap |].
  destruct (typ =? "noms.SetDef"); [apply Tracks_writeSet |].
  destruct (typ =? "noms.StructDef"); [apply Tracks_writeStruct |].
  apply Step_refl; reflexivity.
Qed.

(** When [writeType] returns, every map the definition refers to is in
    one of the sets. *)
Lemma Iter_Done_registers (sn : string) (m : types.mapData) (ng ng' : NG) (x : types.Value) :
  Iter (writeStruct_func sn) m ng = Done tt ng' ->
  In x (fieldRefs m) -> isMap x = true ->
  In x (written ng') \/ In x (toWrite ng').
Proof.
  revert ng. induction m as [| [k v] m IH]; intros ng H Hx Hm; [contradiction |].
  simpl in H. apply bind_Done in H. destruct H as ([] & ng1 & Hk & Hrest).
  unfold fieldRefs in Hx. simpl in Hx.
  destruct (isFieldKey k) eqn:E; [destruct Hx as [<- | Hx] |].
  - destruct (writeStruct_func_field sn k v E) as (sk & _ & Hf). rewrite Hf in Hk.
    unfold writeField in Hk. apply bind_Done in Hk. destruct Hk as ([] & ng2 & Ha & Hk).
    apply (Step_covers (fieldRefs m) ng1).
    { refine (Tracks_Done _ _ _ _ _ _ Hrest). apply Tracks_Iter. }
    apply (Step_covers [] ng2).
    { refine (Tracks_Done _ _ _ _ _ _ Hk). apply Tracks_bind; intros; tracks. }
    apply (addType_Done (Some v) ng ng2 v Ha); [left; reflexivity | exact Hm].
  - apply (IH ng1); assumption.
  - apply (IH ng1); assumption.
Qed.

Lemma writeType_Done_registers (m : types.mapData) (ng ng' : NG) (x : types.Value) :
  writeType m ng = Done tt ng' -> In x (refs m) -> isMap x = true ->
  In x (written ng') \/ In x (toWrite ng').
Proof.
  unfold writeType, refs.
  destruct (asString (types.Get (types.NewString "$type") m)) as [typ | p];
    unfold bind at 1, lift; [| discriminate].
  destruct (typ =? "noms.ListDef").
  { unfold writeList. intros H Hx Hm. apply bind_Done in H.
    destruct H as ([] & ng1 & Ha & H).
    apply (Step_covers [] ng1).
    { refine (Tracks_Done _ _ _ _ _ _ H). apply Tracks_bind; intros; tracks. }
    apply (addType_Done _ ng ng1 x Ha); assumption. }
  destruct (typ =? "noms.MapDef").
  { unfold writeMap. intros H Hx Hm. apply bind_Done in H.
    destruct H as ([] & ng1 & Ha & H). apply bind_Done in H.
    destruct H as ([] & ng2 & Hb & H).
    apply (Step_covers [] ng2).
    { refine (Tracks_Done _ _ _ _ _ _ H). apply Tracks_bind; intros; tracks. }
    apply in_app_or in Hx. destruct Hx as [Hx | Hx].
    - apply (Step_covers (optList (types.Get (types.NewString "value") m)) ng1).
      { refine (Tracks_Done _ _ _ _ _ _ Hb). apply Tracks_addType. }
      apply (addType_Done _ ng ng1 x Ha); assumption.
    - apply (addType_Done _ ng1 ng2 x Hb); assumption. }
  destruct (typ =? "noms.SetDef").
  { unfold writeSet. intros H Hx Hm. apply bind_Done in H.
    destruct H as ([] & ng1 & Ha & H).
    apply (Step_covers [] ng1).
    { refine (Tracks_Done _ _ _ _ _ _ H). apply Tracks_bind; intros; tracks. }
    apply (addType_Done _ ng ng1 x Ha); assumption. }
  destruct (typ =? "noms.StructDef"); [| contradiction].
  unfold writeStruct. intros H Hx Hm.
  apply bind_Done in H. destruct H as (sn & ng1 & _ & H).
  apply bind_Done in H. destruct H as (sn' & ng2 & _ & H).
  apply bind_Done in H. destruct H as ([] & ng3 & _ & H).
  apply (Iter_Done_registers sn m ng3 ng' x H); assumption.
Qed.

(** ** Registration *)

Lemma occurrences_absent (v : types.Value) (s : types.Set_) :
  ~ In v s -> occurrences v s = 0.
Proof.
  unfold occurrences. induction s as [| x s IH]; simpl; [reflexivity |].
  intros H. destruct (types.Equals v x) eqn:E.
  - apply Equals_eq in E. subst. exfalso. apply H. left. reflexivity.
  - apply IH. intros Hin. apply H. right. exact Hin.
Qed.

Lemma occurrences_NoDup (v : types.Value) (s : types.Set_) :
  NoDup s -> In v s -> occurrences v s = 1.
Proof.
  unfold occurrences. induction 1 as [| x s Hx Hs IH]; simpl; [contradiction |].
  intros [-> | Hin].
  - rewrite Equals_refl. simpl. f_equal. apply (occurrences_absent v s Hx).
  - destruct (types.Equals v x) eqn:E; [| apply IH; exact Hin].
    apply Equals_eq in E. subst. contradiction.
Qed.

(** C3: registering is idempotent.  Registering a primitive changes
    nothing; registering a definition that is already in [written] or in
    [toWrite] changes nothing; and registering twice a definition that is
    not yet written leaves exactly one occurrence of it in [toWrite], the
    second call changing nothing. *)
Theorem addType_idempotent :
  (forall s ng, addType (Some (types.String s)) ng = Done tt ng)
  /\ (forall m ng,
        In (types.Map m) (written ng) \/ In (types.Map m) (toWrite ng) ->
        addType (Some (types.Map m)) ng = Done tt ng)
  /\ (forall m ng,
        NoDup (toWrite ng) -> ~ In (types.Map m) (written ng) ->
        exists ng1,
          addType (Some (types.Map m)) ng = Done tt ng1
          /\ addType (Some (types.Map m)) ng1 = Done tt ng1
          /\ occurrences (types.Map m) (toWrite ng1) = 1
          /\ written ng1 = written ng /\ w ng1 = w ng).
Proof.
  split; [reflexivity | split].
  - intros m ng H. simpl.
    destruct H as [H | H]; apply Has_In in H; rewrite H; [reflexivity |].
    rewrite orb_true_r. reflexivity.
  - intros m ng Hn Hw. apply Has_not_In in Hw. simpl. rewrite Hw. simpl.
    destruct (types.Has (types.Map m) (toWrite ng)) eqn:Et.
    + exists ng. rewrite Hw, Et. simpl. repeat split.
      apply occurrences_NoDup; [exact Hn | apply Has_In; exact Et].
    + eexists. split; [reflexivity |]. simpl. rewrite Hw. simpl.
      assert (Hin : In (types.Map m) (types.Insert (types.Map m) (toWrite ng)))
        by (apply In_Insert; left; reflexivity).
      rewrite (proj2 (Has_In _ _) Hin). repeat split.
      apply occurrences_NoDup; [apply NoDup_Insert; exact Hn | exact Hin].
Qed.

Lemma addType_idempotent_witness :
  exists ng1,
    addType (Some Point) (New []) = Done tt ng1
    /\ addType (Some Point) ng1 = Done tt ng1
    /\ occurrences Point (toWrite ng1) = 1
    /\ written ng1 = [] /\ w ng1 = [].
Proof.
  destruct addType_idempotent as (_ & _ & H).
  apply (H (entriesOf Point) (New [])); simpl; [constructor | tauto].
Defined.

(** ** The two sets *)

Lemma Step_Disjoint (C : list types.Value) (ng ng' : NG) :
  Step C ng ng' -> Disjoint ng -> Disjoint ng'.
Proof.
  intros [Hw (added & Ht & _ & H)] HD x Hx. rewrite Hw in Hx. rewrite Ht.
  intros Hin. apply in_app_or in Hin. destruct Hin as [Hin | Hin].
  - exact (HD x Hx Hin).
  - destruct (H x Hin) as (_ & _ & Hnw & _). exact (Hnw Hx).
Qed.

Lemma Step_Keeps (C : list types.Value) (ng ng' : NG) : Step C ng ng' -> Keeps ng ng'.
Proof. intros H x. apply (Step_covers C). exact H. Qed.

Lemma markWritten_Disjoint (t : types.Value) (ng : NG) :
  Disjoint ng -> Disjoint (markWritten t ng).
Proof.
  intros HD x. simpl. rewrite In_Insert, In_Remove. intros [-> | Hx] [Hin Hne].
  - apply Hne. reflexivity.
  - exact (HD x Hx Hin).
Qed.

Lemma markWritten_Keeps (t : types.Value) (ng : NG) : Keeps ng (markWritten t ng).
Proof.
  intros x. simpl. rewrite In_Insert, In_Remove. intros [Hx | Hx]; [tauto |].
  destruct (types.Equals x t) eqn:E.
  - apply Equals_eq in E. tauto.
  - apply Equals_false in E. tauto.
Qed.

Lemma Keeps_trans (a b c : NG) : Keeps a b -> Keeps b c -> Keeps a c.
Proof. intros H1 H2 x Hx. apply H2, H1, Hx. Qed.

Lemma writeNext_sets (Any : types.Set_ -> types.Value) (ng : NG) :
  Disjoint ng ->
  Disjoint (state (writeNext Any ng)) /\ Keeps ng (state (writeNext Any ng)).
Proof.
  intros HD. unfold writeNext.
  pose proof (markWritten_Disjoint (Any (toWrite ng)) ng HD) as HD1.
  pose proof (markWritten_Keeps (Any (toWrite ng)) ng) as HK1.
  destruct (Any (toWrite ng)) as [s | m | n]; try (split; assumption).
  pose proof (Tracks_writeType m (markWritten (types.Map m) ng)) as HS.
  split.
  - apply (Step_Disjoint _ _ _ HS HD1).
  - apply (Keeps_trans _ _ _ HK1). apply (Step_Keeps _ _ _ HS).
Qed.

Lemma drain_sets (Any : types.Set_ -> types.Value) (fuel : nat) (ng : NG)
      (o : Outcome unit) :
  drain Any fuel ng = Some o -> Disjoint ng ->
  Disjoint (state o) /\ Keeps ng (state o).
Proof.
  revert ng. induction fuel as [| fuel IH]; intros ng H HD; simpl in H;
    destruct (types.Empty (toWrite ng));
    try (injection H as <-; split; [exact HD | intros x Hx; exact Hx]);
    try discriminate.
  destruct (writeNext_sets Any ng HD) as [HD1 HK1].
  destruct (writeNext Any ng) as [[] ng1 | p ng1]; simpl in HD1, HK1.
  - destruct (IH ng1 H HD1) as [HD2 HK2]. split; [exact HD2 |].
    apply (Keeps_trans _ _ _ HK1 HK2).
  - injection H as <-. split; assumption.
Qed.

(** C4: the invariant of the two sets.  In a new generator the sets are
    disjoint.  Registering a value, moving the chosen member from
    [toWrite] to [written], writing a type definition, a whole pass through
    the body of the loop, and the loop as far as it goes each keep
    [written] and [toWrite] disjoint and lose no member of their union;
    so the sets are disjoint in whatever state [WriteGo] ends, normally or
    in a panic. *)
Theorem sets_disjoint_union_grows :
  (forall w0, Disjoint (New w0))
  /\ (forall val ng, Disjoint ng ->
        Disjoint (state (addType val ng)) /\ Keeps ng (state (addType val ng)))
  /\ (forall t ng, Disjoint ng ->
        Disjoint (markWritten t ng) /\ Keeps ng (markWritten t ng))
  /\ (forall m ng, Disjoint ng ->
        Disjoint (state (writeType m ng)) /\ Keeps ng (state (writeType m ng)))
  /\ (forall Any ng, Disjoint ng ->
        Disjoint (state (writeNext Any ng)) /\ Keeps ng (state (writeNext Any ng)))
  /\ (forall Any fuel ng o, Disjoint ng -> drain Any fuel ng = Some o ->
        Disjoint (state o) /\ Keeps ng (state o))
  /\ (forall Any fuel val pkg w0 o,
        WriteGo Any fuel val pkg (New w0) = Some o -> Disjoint (state o)).
Proof.
  repeat apply conj.
  - intros w0 x [].
  - intros val ng HD. pose proof (Tracks_addType val ng) as HS.
    split; [apply (Step_Disjoint _ _ _ HS HD) | apply (Step_Keeps _ _ _ HS)].
  - intros t ng HD. split; [apply markWritten_Disjoint; exact HD | apply markWritten_Keeps].
  - intros m ng HD. pose proof (Tracks_writeType m ng) as HS.
    split; [apply (Step_Disjoint _ _ _ HS HD) | apply (Step_Keeps _ _ _ HS)].
  - intros Any ng HD. apply writeNext_sets. exact HD.
  - intros Any fuel ng o HD H. apply (drain_sets Any fuel ng o H HD).
  - intros Any fuel val pkg w0 o. unfold WriteGo, bind, Execute.
    set (ng0 := {| w := w (New w0) ++ [headerTmpl pkg]; written := written (New w0);
                   toWrite := toWrite (New w0) |}).
    assert (HD0 : Disjoint ng0) by (intros x []).
    pose proof (Tracks_addType (Some (types.Map val)) ng0) as HS.
    destruct (addType (Some (types.Map val)) ng0) as [[] ng1 | p ng1]; simpl in HS.
    + intros H. apply (drain_sets Any fuel ng1 o H).
      apply (Step_Disjoint _ _ _ HS HD0).
    + intros H. injection H as <-. apply (Step_Disjoint _ _ _ HS HD0).
Qed.

Lemma sets_disjoint_union_grows_witness :
  Disjoint (state (writeNext AnyFirst (halfway "main")))
  /\ Keeps (halfway "main") (state (writeNext AnyFirst (halfway "main")))
  /\ Disjoint (state (addType (Some (SetDef Point)) (halfway "main")))
  /\ Keeps (halfway "main") (state (addType (Some (SetDef Point)) (halfway "main"))).
Proof.
  assert (HD : Disjoint (halfway "main")).
  { intros x [<- | []] [E | [E | []]]; discriminate. }
  destruct sets_disjoint_union_grows as (_ & HAdd & _ & _ & HNext & _).
  destruct (HNext AnyFirst (halfway "main") HD) as [H1 H2].
  destruct (HAdd (Some (SetDef Point)) (halfway "main") HD) as [H3 H4].
  repeat split; assumption.
Defined.

(** ** Reachable type definitions *)

Lemma Get_In (key : types.Value) (m : types.mapData) (v : types.Value) :
  types.Get key m = Some v -> exists k, In (k, v) m.
Proof.
  induction m as [| [k x] m IH]; simpl; [discriminate |].
  destruct (types.Equals k key).
  - intros H. injection H as ->. exists k. left. reflexivity.
  - intros H. destruct (IH H) as [k' Hk']. exists k'. right. exact Hk'.
Qed.

Lemma depth_entry (m : types.mapData) (k v : types.Value) :
  In (k, v) m -> depth v < depth (types.Map m).
Proof.
  intros H. simpl. apply Nat.lt_succ_r.
  induction m as [| [k' v'] m IH]; [contradiction |].
  destruct H as [E | H].
  - injection E as -> ->. lia.
  - specialize (IH H). lia.
Qed.

Lemma refs_entry (m : types.mapData) (c : types.Value) :
  In c (refs m) -> exists k, In (k, c) m.
Proof.
  unfold refs. destruct (asString (types.Get (types.NewString "$type") m)) as [typ | p];
    [| contradiction].
  assert (HG : forall key, In c (optList (types.Get key m)) -> exists k, In (k, c) m).
  { intros key. destruct (types.Get key m) as [v |] eqn:E; [| contradiction].
    intros [<- | []]. apply (Get_In key). exact E. }
  destruct (typ =? "noms.ListDef"); [apply HG |].
  destruct (typ =? "noms.MapDef").
  { intros H. apply in_app_or in H. destruct H as [H | H]; apply HG in H; exact H. }
  destruct (typ =? "noms.SetDef"); [apply HG |].
  destruct (typ =? "noms.StructDef"); [| contradiction].
  intros H. apply in_map_iff in H. destruct H as ([k v] & <- & H).
  apply filter_In in H. exists k. apply H.
Qed.

Lemma refs_depth (m : types.mapData) (c : types.Value) :
  In c (refs m) -> depth c < depth (types.Map m).
Proof.
  intros H. destruct (refs_entry m c H) as [k Hk]. apply (depth_entry m k c Hk).
Qed.

Lemma reachN_not_Map (n : nat) (t : types.Value) : isMap t = false -> reachN n t = [].
Proof. destruct n, t; simpl; congruence. Qed.

Lemma reachN_sound (root : types.mapData) (n : nat) (t x : types.Value) :
  Reachable root t -> In x (reachN n t) -> Reachable root x.
Proof.
  revert t x. induction n as [| n IH]; intros t x Ht Hx; [destruct t; contradiction |].
  destruct t as [s | m | k]; try contradiction.
  destruct Hx as [<- | Hx]; [exact Ht |].
  apply in_flat_map in Hx. destruct Hx as (c & Hc & Hx).
  destruct (isMap c) eqn:E.
  - apply (IH c x); [| exact Hx]. apply (Reachable_ref root m c Ht Hc E).
  - rewrite (reachN_not_Map n c E) in Hx. contradiction.
Qed.

Lemma reachN_self (n : nat) (t : types.Value) :
  isMap t = true -> depth t <= n -> In t (reachN n t).
Proof.
  destruct t as [s | m | k]; try discriminate. intros _ H.
  destruct n as [| n]; [simpl in H; lia |]. left. reflexivity.
Qed.

Lemma reachN_closed (n : nat) (t : types.Value) (m : types.mapData) (c : types.Value) :
  depth t <= n -> In (types.Map m) (reachN n t) -> In c (refs m) -> isMap c = true ->
  In c (reachN n t).
Proof.
  revert t. induction n as [| n IH]; intros t Hd Hy Hc Hm; [destruct t; contradiction |].
  destruct t as [s | m0 | k]; try contradiction.
  destruct Hy as [E | Hy].
  - injection E as ->. right. apply in_flat_map. exists c. split; [exact Hc |].
    apply reachN_self; [exact Hm |]. pose proof (refs_depth m c Hc). lia.
  - right. apply in_flat_map in Hy. destruct Hy as (c0 & Hc0 & Hy).
    apply in_flat_map. exists c0. split; [exact Hc0 |].
    apply IH; try assumption. pose proof (refs_depth m0 c0 Hc0). lia.
Qed.

Lemma reachN_complete (root : types.mapData) (x : types.Value) :
  Reachable root x -> In x (reachN (depth (types.Map root)) (types.Map root)).
Proof.
  induction 1 as [| m c _ IH Hc Hm].
  - apply reachN_self; [reflexivity | apply le_n].
  - apply (reachN_closed _ _ m c); [apply le_n | exact IH | exact Hc | exact Hm].
Qed.

Lemma fold_Insert_In (l : list types.Value) (s : types.Set_) (x : types.Value) :
  In x (fold_left (fun s v => types.Insert v s) l s) <-> In x l \/ In x s.
Proof.
  revert s. induction l as [| v l IH]; intros s; simpl; [tauto |].
  rewrite IH, In_Insert. split; intros; intuition congruence.
Qed.

Lemma fold_Insert_NoDup (l : list types.Value) (s : types.Set_) :
  NoDup s -> NoDup (fold_left (fun s v => types.Insert v s) l s).
Proof.
  revert s. induction l as [| v l IH]; intros s Hs; simpl; [exact Hs |].
  apply IH, NoDup_Insert, Hs.
Qed.

Lemma reachable_spec (root : types.mapData) (x : types.Value) :
  In x (reachable root) <-> Reachable root x.
Proof.
  unfold reachable, dedup. rewrite fold_Insert_In. split.
  - intros [H | []]. apply (reachN_sound root _ _ x (Reachable_root root) H).
  - intros H. left. apply reachN_complete. exact H.
Qed.

Lemma reachable_NoDup (root : types.mapData) : NoDup (reachable root).
Proof. apply fold_Insert_NoDup. constructor. Qed.

Lemma Reachable_isMap (root : types.mapData) (x : types.Value) :
  Reachable root x -> isMap x = true.
Proof. intros [| m c _ _ H]; [reflexivity | exact H]. Qed.

(** ** The loop of [WriteGo] *)

Section Drain.

Variable Any : types.Set_ -> types.Value.
Hypothesis Any_In : forall s, types.Empty s = false -> In (Any s) s.
Variable root : types.mapData.
Variable pre : list Block.

Lemma writeNext_Inv (ng : NG) :
  Inv root pre ng -> types.Empty (toWrite ng) = false ->
  exists m,
    Any (toWrite ng) = types.Map m
    /\ writeNext Any ng = writeType m (markWritten (types.Map m) ng)
    /\ written (state (writeNext Any ng)) = written ng ++ [types.Map m]
    /\ Inv root pre (state (writeNext Any ng)).
Proof.
  intros (Hnw & Hnt & HD & HR & Hw) HE.
  pose proof (Any_In _ HE) as Hin.
  pose proof (HR _ (or_intror Hin)) as Hreach.
  pose proof (Reachable_isMap root _ Hreach) as HisMap.
  unfold writeNext. destruct (Any (toWrite ng)) as [s | m | k]; try discriminate.
  exists m. split; [reflexivity |]. split; [reflexivity |].
  assert (Hfresh : ~ In (types.Map m) (written ng)) by (intros H; exact (HD _ H Hin)).
  set (ng2 := markWritten (types.Map m) ng).
  assert (Hw2 : written ng2 = written ng ++ [types.Map m])
    by (apply Insert_fresh; exact Hfresh).
  destruct (Tracks_writeType m ng2) as [Hwr (added & Ht & Hna & Hadded)].
  split; [rewrite Hwr; exact Hw2 |].
  unfold Inv. rewrite Hwr, Ht, Hw2. repeat apply conj.
  - apply NoDup_snoc; assumption.
  - apply NoDup_app; [apply NoDup_Remove; exact Hnt | exact Hna |].
    intros x Hx Hx'. destruct (Hadded x Hx') as (_ & _ & _ & Hnot). exact (Hnot Hx).
  - apply (Step_Disjoint (refs m) ng2); [apply Tracks_writeType |].
    apply markWritten_Disjoint. exact HD.
  - intros x [Hx | Hx].
    + apply in_app_or in Hx. destruct Hx as [Hx | [<- | []]]; [| exact Hreach].
      apply HR. left. exact Hx.
    + apply in_app_or in Hx. destruct Hx as [Hx | Hx].
      * apply In_Remove in Hx. apply HR. right. apply Hx.
      * destruct (Hadded x Hx) as (Hc & Hm & _).
        apply (Reachable_ref root m x Hreach Hc Hm).
  - rewrite writeType_rendered. simpl w. rewrite Hw, flat_map_app. simpl.
    rewrite app_nil_r, app_assoc. reflexivity.
Qed.

Lemma writeNext_Closed (ng ng' : NG) :
  Inv root pre ng -> Closed root ng -> types.Empty (toWrite ng) = false ->
  writeNext Any ng = Done tt ng' -> Closed root ng'.
Proof.
  intros HI [Hroot Hcl] HE HDone.
  destruct (writeNext_Inv ng HI HE) as (m & _ & Hstep & Hwr & _).
  destruct HI as (_ & _ & HD & _).
  destruct (writeNext_sets Any ng HD) as [_ HK].
  rewrite HDone in Hwr, HK. simpl in Hwr, HK. rewrite HDone in Hstep. split.
  - apply HK. exact Hroot.
  - intros m' c Hm' Hc HisMap. rewrite Hwr in Hm'. apply in_app_or in Hm'.
    destruct Hm' as [Hm' | [E | []]].
    + apply HK. apply (Hcl m' c); assumption.
    + injection E as <-. symmetry in Hstep.
      apply (writeType_Done_registers m _ ng' c Hstep Hc HisMap).
Qed.

Lemma drain_Inv (fuel : nat) (ng : NG) (o : Outcome unit) :
  Inv root pre ng -> drain Any fuel ng = Some o -> Inv root pre (state o).
Proof.
  revert ng. induction fuel as [| fuel IH]; intros ng HI H; simpl in H;
    destruct (types.Empty (toWrite ng)) eqn:HE;
    try (injection H as <-; exact HI); try discriminate.
  destruct (writeNext_Inv ng HI HE) as (_ & _ & _ & _ & HI1).
  destruct (writeNext Any ng) as [[] ng1 | p ng1]; simpl in HI1.
  - apply (IH ng1 HI1 H).
  - injection H as <-. exact HI1.
Qed.

Lemma drain_Closed (fuel : nat) (ng ng' : NG) :
  Inv root pre ng -> Closed root ng -> drain Any fuel ng = Some (Done tt ng') ->
  Closed root ng' /\ toWrite ng' = [].
Proof.
  revert ng. induction fuel as [| fuel IH]; intros ng HI HC H; simpl in H;
    destruct (types.Empty (toWrite ng)) eqn:HE;
    try (injection H as <-; split; [exact HC | apply Empty_nil; exact HE]);
    try discriminate.
  destruct (writeNext_Inv ng HI HE) as (_ & _ & _ & _ & HI1).
  pose proof (writeNext_Closed ng) as HC1.
  destruct (writeNext Any ng) as [[] ng1 | p ng1]; simpl in HI1; [| discriminate].
  apply (IH ng1 HI1); [| exact H]. apply HC1; [exact HI | exact HC | exact HE | reflexivity].
Qed.

Lemma Closed_all (ng : NG) (x : types.Value) :
  Closed root ng -> toWrite ng = [] -> Reachable root x -> In x (written ng).
Proof.
  intros [Hroot Hcl] Hnil. rewrite Hnil in Hroot, Hcl.
  induction 1 as [| m c _ IH Hc Hm].
  - destruct Hroot as [H | []]. exact H.
  - destruct (Hcl m c IH Hc Hm) as [H | []]. exact H.
Qed.

Lemma Inv_bound (ng : NG) :
  Inv root pre ng ->
  List.length (written ng) + List.length (toWrite ng) <= List.length (reachable root).
Proof.
  intros (Hnw & Hnt & HD & HR & _). rewrite <- length_app.
  apply NoDup_incl_length.
  - apply NoDup_app; [exact Hnw | exact Hnt | exact HD].
  - intros x Hx. apply reachable_spec. apply HR. apply in_app_or. exact Hx.
Qed.

Lemma drain_terminates (fuel : nat) (ng : NG) :
  Inv root pre ng ->
  List.length (reachable root) <= fuel + List.length (written ng) ->
  exists o, drain Any fuel ng = Some o.
Proof.
  revert ng. induction fuel as [| fuel IH]; intros ng HI Hlen; simpl;
    destruct (types.Empty (toWrite ng)) eqn:HE; try (eexists; reflexivity).
  - pose proof (Inv_bound ng HI). destruct (toWrite ng); [discriminate | simpl in *; lia].
  - destruct (writeNext_Inv ng HI HE) as (m & _ & _ & Hwr & HI1).
    destruct (writeNext Any ng) as [[] ng1 | p ng1]; simpl in Hwr, HI1;
      [| eexists; reflexivity].
    apply (IH ng1 HI1). rewrite Hwr, length_app. simpl. lia.
Qed.

Lemma drain_more_fuel (fuel extra : nat) (ng : NG) (o : Outcome unit) :
  drain Any fuel ng = Some o -> drain Any (fuel + extra) ng = Some o.
Proof.
  revert ng. induction fuel as [| fuel IH]; intros ng; simpl.
  - destruct (types.Empty (toWrite ng)) eqn:HE; [| discriminate].
    intros H. destruct extra; simpl; rewrite HE; exact H.
  - destruct (types.Empty (toWrite ng)); [tauto |].
    destruct (writeNext Any ng); [apply IH | tauto].
Qed.

End Drain.

Lemma AnyFirst_In (s : types.Set_) : types.Empty s = false -> In (AnyFirst s) s.
Proof. destruct s; [discriminate |]. intros _. left. reflexivity. Qed.

Lemma WriteGo_drain (Any : types.Set_ -> types.Value) (fuel : nat)
      (val : types.mapData) (pkg : string) (w0 : list Block) :
  WriteGo Any fuel val pkg (New w0) = drain Any fuel (started val pkg w0).
Proof. reflexivity. Qed.

Lemma started_Inv (val : types.mapData) (pkg : string) (w0 : list Block) :
  Inv val (w0 ++ [headerTmpl pkg]) (started val pkg w0)
  /\ Closed val (started val pkg w0).
Proof.
  unfold Inv, Closed, started. simpl. repeat apply conj.
  - constructor.
  - constructor; [intros [] | constructor].
  - intros x [].
  - intros x [[] | [<- | []]]. apply Reachable_root.
  - rewrite app_nil_r. reflexivity.
  - right. left. reflexivity.
  - intros m c [].
Qed.

(** C9: the loop of [WriteGo] ends.  Whatever member [Any] picks, as many
    passes through the body of the loop as there are distinct maps
    reachable from the root are enough for [WriteGo] to end, normally or
    in a panic; [reachable] lists these maps, each once. *)
Theorem WriteGo_terminates
        (Any : types.Set_ -> types.Value)
        (Any_In : forall s, types.Empty s = false -> In (Any s) s)
        (val : types.mapData) (pkg : string) (w0 : list Block) :
  NoDup (reachable val)
  /\ (forall t, In t (reachable val) <-> Reachable val t)
  /\ exists o,
       forall fuel, List.length (reachable val) <= fuel ->
                    WriteGo Any fuel val pkg (New w0) = Some o.
Proof.
  split; [apply reachable_NoDup |]. split; [apply reachable_spec |].
  destruct (started_Inv val pkg w0) as [HI _].
  destruct (drain_terminates Any Any_In val _ (List.length (reachable val)) _ HI)
    as [o Ho]; [simpl; lia |].
  exists o. intros fuel Hfuel. rewrite WriteGo_drain.
  replace fuel with (List.length (reachable val) + (fuel - List.length (reachable val)))
    by lia.
  apply drain_more_fuel. exact Ho.
Qed.

Lemma WriteGo_terminates_witness :
  exists o,
    forall fuel,
      List.length (reachable (entriesOf (MapDef Point (ListDef Point)))) <= fuel ->
      WriteGo AnyFirst fuel (entriesOf (MapDef Point (ListDef Point))) "main" (New [])
      = Some o.
Proof.
  apply (WriteGo_terminates AnyFirst AnyFirst_In
           (entriesOf (MapDef Point (ListDef Point))) "main" []).
Defined.

(** ** Malformed type definitions *)

Lemma not_a_shape (typ : string) :
  ~ In typ typeDefShapes ->
  (typ =? "noms.ListDef") = false /\ (typ =? "noms.MapDef") = false
  /\ (typ =? "noms.SetDef") = false /\ (typ =? "noms.StructDef") = false.
Proof.
  intros H. repeat split; apply String.eqb_neq; intros ->; apply H; simpl; tauto.
Qed.

Lemma Any_single (Any : types.Set_ -> types.Value)
      (Any_In : forall s, types.Empty s = false -> In (Any s) s) (v : types.Value) :
  Any [v] = v.
Proof. destruct (Any_In [v] eq_refl) as [H | []]. symmetry. exact H. Qed.

Lemma writeNext_appends (Any : types.Set_ -> types.Value) (ng : NG) :
  exists out, w (state (writeNext Any ng)) = w ng ++ out.
Proof.
  unfold writeNext. destruct (Any (toWrite ng)) as [s | m | k];
    try (exists []; simpl; rewrite app_nil_r; reflexivity).
  eexists. rewrite writeType_rendered. reflexivity.
Qed.

Lemma drain_appends (Any : types.Set_ -> types.Value) (fuel : nat) (ng : NG)
      (o : Outcome unit) :
  drain Any fuel ng = Some o -> exists out, w (state o) = w ng ++ out.
Proof.
  revert ng. induction fuel as [| fuel IH]; intros ng H; simpl in H;
    destruct (types.Empty (toWrite ng));
    try (injection H as <-; exists []; simpl; rewrite app_nil_r; reflexivity);
    try discriminate.
  destruct (writeNext_appends Any ng) as [out1 H1].
  destruct (writeNext Any ng) as [[] ng1 | p ng1]; simpl in H1.
  - destruct (IH ng1 H) as [out2 H2]. exists (out1 ++ out2).
    rewrite H2, H1, app_assoc. reflexivity.
  - injection H as <-. exists out1. exact H1.
Qed.

(** The first pass through the body of the loop, on the root. *)
Lemma writeNext_started (Any : types.Set_ -> types.Value)
      (Any_In : forall s, types.Empty s = false -> In (Any s) s)
      (val : types.mapData) (pkg : string) (w0 : list Block) :
  writeNext Any (started val pkg w0)
  = writeType val {| w := w0 ++ [headerTmpl pkg]; written := [types.Map val];
                     toWrite := [] |}.
Proof.
  unfold writeNext, started. cbn [toWrite]. rewrite (Any_single Any Any_In).
  unfold markWritten, types.Remove, types.Insert, types.Has.
  cbn -[types.Equals]. rewrite Equals_refl. reflexivity.
Qed.

Lemma addType_w (val : option types.Value) (ng : NG) :
  w (state (addType val ng)) = w ng.
Proof.
  destruct val as [[s | m | k] |]; try reflexivity. simpl.
  destruct (types.Has (types.Map m) (written ng) || types.Has (types.Map m) (toWrite ng));
    reflexivity.
Qed.

(** When the name of a map definition cannot be resolved, [writeMap]
    panics before it writes. *)
Lemma writeMap_unnamed (m : types.mapData) (p : Panic) (ng : NG) :
  getGoStructName (Some (types.Map m)) = Fail p ->
  exists p' ng', writeMap m ng = Panicked p' ng' /\ w ng' = w ng.
Proof.
  intros Hp. unfold writeMap, bind, getGoTypeName. rewrite Hp.
  pose proof (addType_w (types.Get (types.NewString "key") m) ng) as Hw1.
  destruct (addType (types.Get (types.NewString "key") m) ng) as [[] ng1 | p1 ng1];
    simpl in Hw1; [| exists p1, ng1; split; [reflexivity | exact Hw1]].
  pose proof (addType_w (types.Get (types.NewString "value") m) ng1) as Hw2.
  destruct (addType (types.Get (types.NewString "value") m) ng1) as [[] ng2 | p2 ng2];
    simpl in Hw2; simpl; eexists; eexists; (split; [reflexivity | congruence]).
Qed.

(** ** The fields of a struct *)

Lemma writeStruct_func_meta (sn : string) (k v : types.Value) (ng : NG) :
  isMetaKey k = true -> writeStruct_func sn k v ng = Done tt ng.
Proof.
  destruct k as [[| c s] | m | n]; simpl; try discriminate.
  intros H. unfold writeStruct_func, bind. simpl. rewrite H. reflexivity.
Qed.

Lemma writeStruct_func_bad (sn : string) (k v : types.Value) (ng : NG) :
  isMetaKey k = false -> isFieldKey k = false ->
  exists p, writeStruct_func sn k v ng = Panicked p ng.
Proof.
  destruct k as [[| c s] | m | n]; simpl; intros H1 H2;
    try (eexists; reflexivity).
  rewrite H1 in H2. discriminate.
Qed.

Lemma writeField_cases (sn fn : string) (typeDef : option types.Value) (ng : NG) :
  (exists ft ng', writeField sn fn typeDef ng = Done tt ng'
                  /\ w ng' = w ng ++ [fieldTempl sn ft (strings.Title fn) fn])
  \/ (exists p ng', writeField sn fn typeDef ng = Panicked p ng' /\ w ng' = w ng).
Proof.
  unfold writeField, bind. pose proof (addType_w typeDef ng) as Hw.
  destruct (addType typeDef ng) as [[] ng1 | p ng1]; simpl in Hw;
    [| right; exists p, ng1; split; [reflexivity | exact Hw]].
  destruct (getGoTypeName typeDef) as [ft | p]; simpl.
  - left. exists ft. eexists. split; [reflexivity |]. simpl. rewrite Hw. reflexivity.
  - right. exists p, ng1. split; [reflexivity | exact Hw].
Qed.

Lemma Iter_cons (cb : types.Value -> types.Value -> M unit) (k v : types.Value)
      (m : types.mapData) (ng : NG) :
  Iter cb ((k, v) :: m) ng =
  match cb k v ng with
  | Done _ ng1 => Iter cb m ng1
  | Panicked p ng1 => Panicked p ng1
  end.
Proof. reflexivity. Qed.

(** Iterating writes field blocks for the declared fields, in their
    order, as far as it gets: all of them when it returns. *)
Lemma Iter_fields (sn : string) (m : types.mapData) (ng : NG) :
  exists out rest,
    w (state (Iter (writeStruct_func sn) m ng)) = w ng ++ out
    /\ Forall (fieldBlockOf sn) out
    /\ declaredFields m = fieldNames out ++ rest
    /\ (forall ng', Iter (writeStruct_func sn) m ng = Done tt ng' -> rest = []).
Proof.
  revert ng. induction m as [| [k v] m IH]; intros ng.
  { exists [], []. simpl. rewrite app_nil_r. repeat split; constructor. }
  rewrite Iter_cons.
  destruct (isMetaKey k) eqn:EM.
  - rewrite (writeStruct_func_meta sn k v ng EM).
    destruct (IH ng) as (out & rest & Hw & Hf & Hd & Hr).
    exists out, rest. repeat split; try assumption.
    simpl. destruct k as [[| c s] | m' | n]; try discriminate.
    simpl in EM |- *. rewrite EM. exact Hd.
  - destruct (isFieldKey k) eqn:EF.
    + destruct (writeStruct_func_field sn k v EF) as (sk & -> & ->).
      destruct (writeField_cases sn sk (Some v) ng)
        as [(ft & ng1 & -> & Hw1) | (p & ng1 & -> & Hw1)].
      * destruct (IH ng1) as (out & rest & Hw & Hf & Hd & Hr).
        exists (fieldTempl sn ft (strings.Title sk) sk :: out), rest.
        repeat split.
        -- rewrite Hw, Hw1, <- app_assoc. reflexivity.
        -- constructor; [exists ft, sk; reflexivity | exact Hf].
        -- simpl. simpl in EF. rewrite EF. simpl. rewrite Hd. reflexivity.
        -- exact Hr.
      * exists [], (declaredFields ((types.String sk, v) :: m)). simpl state.
        rewrite Hw1, app_nil_r. repeat split; [constructor | discriminate].
    + destruct (writeStruct_func_bad sn k v ng EM EF) as [p ->].
      exists [], (declaredFields ((k, v) :: m)). simpl state.
      rewrite app_nil_r. repeat split; [constructor | discriminate].
Qed.

(** What [writeStruct] writes when it returns. *)
Lemma writeStruct_Done (val : types.mapData) (ng ng' : NG) :
  writeStruct val ng = Done tt ng' ->
  exists sn out,
    getGoTypeName (Some (types.Map val)) = Ok sn
    /\ w ng' = w ng ++ structTempl sn :: out
    /\ Forall (fieldBlockOf sn) out
    /\ fieldNames out = declaredFields val.
Proof.
  unfold writeStruct, bind at 1 2 3.
  destruct (getGoTypeName (Some (types.Map val))) as [sn | p]; simpl; [| discriminate].
  intros H.
  destruct (Iter_fields sn val {| w := w ng ++ [structTempl sn]; written := written ng;
                                  toWrite := toWrite ng |})
    as (out & rest & Hw & Hf & Hd & Hr).
  rewrite H in Hw. simpl in Hw. rewrite (Hr ng' H), app_nil_r in Hd.
  exists sn, out. repeat split; try assumption; [| symmetry; exact Hd].
  rewrite Hw, <- app_assoc. reflexivity.
Qed.

Lemma field_not_meta (k : types.Value) : isFieldKey k = true -> isMetaKey k = false.
Proof.
  destruct k as [[| c s] | m | n]; simpl; try reflexivity.
  destruct (Ascii.eqb c "$"); [discriminate | reflexivity].
Qed.

Lemma Iter_without_meta (sn : string) (m : types.mapData) (ng : NG) :
  Iter (writeStruct_func sn) m ng
  = Iter (writeStruct_func sn) (filter (fun kv => negb (isMetaKey (fst kv))) m) ng.
Proof.
  revert ng. induction m as [| [k v] m IH]; intros ng; [reflexivity |].
  simpl filter. destruct (isMetaKey k) eqn:EM; simpl negb; cbv iota.
  - rewrite Iter_cons, (writeStruct_func_meta sn k v ng EM). apply IH.
  - rewrite !Iter_cons. destruct (writeStruct_func sn k v ng); [apply IH | reflexivity].
Qed.

Lemma declaredFields_In (m : types.mapData) (fn : string) :
  In fn (declaredFields m) ->
  exists v, In (types.String fn, v) m /\ isFieldKey (types.String fn) = true.
Proof.
  unfold declaredFields. intros H. apply in_flat_map in H.
  destruct H as ([k v] & Hin & H). simpl in H.
  destruct k as [sk | m' | n]; try contradiction.
  destruct (isFieldKey (types.String sk)) eqn:E; [| contradiction].
  destruct H as [<- | []]. exists v. split; assumption.
Qed.

Lemma declaredFields_keys (m : types.mapData) :
  map fst (filter (fun kv => isFieldKey (fst kv)) m)
  = map types.String (declaredFields m).
Proof.
  induction m as [| [k v] m IH]; [reflexivity |].
  unfold declaredFields. simpl.
  destruct k as [[| c s] | m' | n]; simpl; try exact IH.
  destruct (negb (Ascii.eqb c "$")); simpl; [f_equal |]; exact IH.
Qed.

(** C7: metadata is left out.  The function that [writeStruct] iterates
    with returns at once, the generator unchanged, on a key that begins
    with the sigil, so that iterating over a struct is iterating over it
    without these entries; a key that does not begin with the sigil goes
    to [writeField], which registers the type of the field and writes the
    field block.  So whatever [writeStruct] adds to [toWrite] is the value
    of a field whose key does not begin with the sigil, and, when it
    returns, every field block it wrote is for such a field. *)
Theorem metadata_fields_skipped :
  (forall sn k v ng, isMetaKey k = true -> writeStruct_func sn k v ng = Done tt ng)
  /\ (forall sn m ng,
        Iter (writeStruct_func sn) m ng
        = Iter (writeStruct_func sn) (filter (fun kv => negb (isMetaKey (fst kv))) m) ng)
  /\ (forall sn k v, isFieldKey k = true ->
        exists sk, k = types.String sk
                   /\ writeStruct_func sn k v = writeField sn sk (Some v))
  /\ (forall sn fn t ng ng', writeField sn fn (Some t) ng = Done tt ng' ->
        (isMap t = true -> In t (written ng') \/ In t (toWrite ng'))
        /\ exists ft, w ng' = w ng ++ [fieldTempl sn ft (strings.Title fn) fn])
  /\ (forall val ng x,
        In x (toWrite (state (writeStruct val ng))) ->
        In x (toWrite ng)
        \/ exists k, In (k, x) val /\ isFieldKey k = true /\ isMetaKey k = false)
  /\ (forall val ng ng', writeStruct val ng = Done tt ng' ->
        exists sn out,
          w ng' = w ng ++ structTempl sn :: out
          /\ forall fn, In fn (fieldNames out) ->
               isMetaKey (types.String fn) = false
               /\ exists v, In (types.String fn, v) val).
Proof.
  repeat apply conj.
  - apply writeStruct_func_meta.
  - apply Iter_without_meta.
  - apply writeStruct_func_field.
  - intros sn fn t ng ng' H. split.
    + intros Hm. unfold writeField in H. apply bind_Done in H.
      destruct H as ([] & ng1 & Ha & H).
      apply (Step_covers [] ng1).
      { refine (Tracks_Done _ _ _ _ _ _ H). apply Tracks_bind; intros; tracks. }
      apply (addType_Done (Some t) ng ng1 t Ha); [left; reflexivity | exact Hm].
    + destruct (writeField_cases sn fn (Some t) ng)
        as [(ft & ng1 & E & Hw) | (p & ng1 & E & _)]; rewrite E in H; [| discriminate].
      injection H as <-. exists ft. exact Hw.
  - intros val ng x Hx.
    destruct (Tracks_writeStruct val ng) as [_ (added & Ht & _ & Hadded)].
    rewrite Ht in Hx. apply in_app_or in Hx. destruct Hx as [Hx | Hx]; [left; exact Hx |].
    right. destruct (Hadded x Hx) as (HC & _). unfold fieldRefs in HC.
    apply in_map_iff in HC. destruct HC as ([k v] & <- & HC). apply filter_In in HC.
    exists k. destruct HC as [Hin HF]. simpl in HF.
    repeat split; [exact Hin | exact HF | apply field_not_meta; exact HF].
  - intros val ng ng' H.
    destruct (writeStruct_Done val ng ng' H) as (sn & out & _ & Hw & _ & Hd).
    exists sn, out. split; [exact Hw |]. intros fn Hfn. rewrite Hd in Hfn.
    destruct (declaredFields_In val fn Hfn) as (v & Hin & HF).
    split; [apply field_not_meta; exact HF | exists v; exact Hin].
Qed.

Lemma metadata_fields_skipped_witness :
  writeStruct_func "User" (types.String "$name") (ListDef Point) (New []) = Done tt (New [])
  /\ exists sk, types.String "email" = types.String sk
                /\ writeStruct_func "User" (types.String "email") (types.String "string")
                   = writeField "User" sk (Some (types.String "string")).
Proof.
  destruct metadata_fields_skipped as (HMeta & _ & HField & _).
  split.
  - apply (HMeta "User" (types.String "$name") (ListDef Point) (New [])). reflexivity.
  - apply (HField "User" (types.String "email") (types.String "string")). reflexivity.
Defined.

(** C8: the order of the fields is kept.  When [writeStruct] returns, it
    has written the block of the struct and then field blocks of that
    struct only, whose field names are the names the struct declares, in
    the order the map stores them; the declared names are the keys of the
    entries that are not metadata. *)
Theorem fields_in_stored_order (val : types.mapData) (ng ng' : NG) :
  writeStruct val ng = Done tt ng' ->
  exists sn out,
    w ng' = w ng ++ structTempl sn :: out
    /\ Forall (fieldBlockOf sn) out
    /\ fieldNames out = declaredFields val
    /\ map types.String (declaredFields val)
       = map fst (filter (fun kv => isFieldKey (fst kv)) val).
Proof.
  intros H. destruct (writeStruct_Done val ng ng' H) as (sn & out & _ & Hw & Hf & Hd).
  exists sn, out. repeat split; try assumption. symmetry. apply declaredFields_keys.
Qed.

Lemma fields_in_stored_order_witness :
  exists sn out,
    [structTempl "User"; fieldTempl "User" "types.String" "Email" "email";
     fieldTempl "User" "types.Int32" "Age" "age"]
    = [] ++ structTempl sn :: out
    /\ Forall (fieldBlockOf sn) out
    /\ fieldNames out = ["email"; "age"]
    /\ map types.String ["email"; "age"]
       = map fst (filter (fun kv => isFieldKey (fst kv)) (entriesOf User)).
Proof.
  eassert (H : writeStruct (entriesOf User) (New []) = Done tt _)
    by (vm_compute; reflexivity).
  apply (fields_in_stored_order (entriesOf User) (New []) _ H).
Defined.

(** ** A field without a name *)

Lemma writeStruct_func_empty (sn : string) (v : types.Value) (ng : NG) :
  writeStruct_func sn (types.String "") v ng = Panicked IndexOutOfRange ng.
Proof. reflexivity. Qed.

Lemma Iter_empty_key (sn : string) (m : types.mapData) (v : types.Value) (ng : NG) :
  In (types.String "", v) m ->
  exists p ng', Iter (writeStruct_func sn) m ng = Panicked p ng'.
Proof.
  revert ng. induction m as [| [k x] m IH]; intros ng H; [contradiction |].
  rewrite Iter_cons. destruct H as [E | H].
  - injection E as -> ->. rewrite writeStruct_func_empty. eexists. eexists. reflexivity.
  - destruct (writeStruct_func sn k x ng) as [[] ng1 | p ng1];
      [apply (IH ng1 H) | eexists; eexists; reflexivity].
Qed.

Lemma Iter_app_Done (sn : string) (m1 m2 : types.mapData) (ng ng1 : NG) :
  Iter (writeStruct_func sn) m1 ng = Done tt ng1 ->
  Iter (writeStruct_func sn) (m1 ++ m2) ng = Iter (writeStruct_func sn) m2 ng1.
Proof.
  revert ng. induction m1 as [| [k x] m1 IH]; intros ng H.
  - injection H as <-. reflexivity.
  - simpl app. rewrite Iter_cons in H |- *.
    destruct (writeStruct_func sn k x ng) as [[] ng2 | p ng2]; [| discriminate].
    apply (IH ng2 H).
Qed.

Lemma writeStruct_empty_key (val : types.mapData) (v : types.Value) (ng : NG) :
  In (types.String "", v) val ->
  exists p ng', writeStruct val ng = Panicked p ng'.
Proof.
  intros H. unfold writeStruct, bind at 1 2 3.
  destruct (getGoTypeName (Some (types.Map val))) as [sn | p]; simpl;
    [| eexists; eexists; reflexivity].
  apply (Iter_empty_key sn val v _ H).
Qed.

(** C10: the test for the sigil reads the first character of the key
    without looking at its length.  On a key that is the empty string the
    function that [writeStruct] iterates with panics on the index, the
    generator as it was: the field is neither written nor passed over.
    When the entries before it went through, that is the panic in which
    the iteration ends, with nothing written for the entries after it; in
    any case [writeStruct] panics on a struct that has such a key, and so
    does [WriteGo] on a root that is such a struct. *)
Theorem empty_field_name_panics :
  (forall sn v ng,
     writeStruct_func sn (types.String "") v ng = Panicked IndexOutOfRange ng)
  /\ (forall sn m1 v m2 ng ng1,
        Iter (writeStruct_func sn) m1 ng = Done tt ng1 ->
        Iter (writeStruct_func sn) (m1 ++ (types.String "", v) :: m2) ng
        = Panicked IndexOutOfRange ng1)
  /\ (forall val v ng, In (types.String "", v) val ->
        exists p ng', writeStruct val ng = Panicked p ng')
  /\ (forall Any, (forall s, types.Empty s = false -> In (Any s) s) ->
      forall fuel val v pkg w0,
        types.Get (types.NewString "$type") val = Some (types.String "noms.StructDef") ->
        In (types.String "", v) val ->
        exists p ng, WriteGo Any (S fuel) val pkg (New w0) = Some (Panicked p ng)).
Proof.
  repeat apply conj.
  - apply writeStruct_func_empty.
  - intros sn m1 v m2 ng ng1 H. rewrite (Iter_app_Done sn m1 _ ng ng1 H).
    rewrite Iter_cons, writeStruct_func_empty. reflexivity.
  - apply writeStruct_empty_key.
  - intros Any Any_In fuel val v pkg w0 Ht Hin. rewrite WriteGo_drain. simpl.
    rewrite (writeNext_started Any Any_In).
    unfold writeType, bind at 1. rewrite Ht. simpl.
    destruct (writeStruct_empty_key val v
                {| w := w0 ++ [headerTmpl pkg]; written := [types.Map val];
                   toWrite := [] |} Hin) as (p & ng' & ->).
    exists p, ng'. reflexivity.
Qed.

Lemma empty_field_name_panics_witness :
  Iter (writeStruct_func "User")
       ([(types.String "email", types.String "string")]
        ++ (types.String "", types.String "int32")
        :: [(types.String "age", types.String "int32")]) (New [])
  = Panicked IndexOutOfRange
      {| w := [fieldTempl "User" "types.String" "Email" "email"];
         written := []; toWrite := [] |}
  /\ exists p ng,
       WriteGo AnyFirst 1
         (entriesOf (StructDef "User" [("email", types.String "string");
                                       ("", types.String "int32")]))
         "main" (New [])
       = Some (Panicked p ng).
Proof.
  destruct empty_field_name_panics as (_ & HIter & _ & HGo).
  split.
  - apply (HIter "User" [(types.String "email", types.String "string")]
                 (types.String "int32") [(types.String "age", types.String "int32")]
                 (New [])).
    reflexivity.
  - apply (HGo AnyFirst AnyFirst_In 0 _ (types.String "int32") "main" []);
      [reflexivity | simpl; tauto].
Defined.

(** C10, as stated, fails on which panic it is: a struct whose field
    before the one without a name has a type that is no primitive panics
    on that type, in [writeStruct] and in [WriteGo], and not on the
    index. *)
Lemma empty_field_name_other_panic :
  In (types.String "", types.String "int32")
     (entriesOf (StructDef "U" [("age", types.String "int8"); ("", types.String "int32")]))
  /\ writeStruct
       (entriesOf (StructDef "U" [("age", types.String "int8"); ("", types.String "int32")]))
       (New [])
     = Panicked (UnexpectedNomsTypeName "int8")
         {| w := [structTempl "U"]; written := []; toWrite := [] |}
  /\ result_of_run
       (WriteGo AnyFirst 1
          (entriesOf (StructDef "U" [("age", types.String "int8");
                                     ("", types.String "int32")]))
          "main" (New []))
     = Some (Fail (UnexpectedNomsTypeName "int8"))
  /\ UnexpectedNomsTypeName "int8" <> IndexOutOfRange.
Proof.
  repeat split; try reflexivity; try discriminate. simpl. tauto.
Qed.

(** * Further properties of the generator *)

(** ** Registration and its panics *)

Lemma getGoTypeName_isTypeDef (typeDef : option types.Value) (n : string) :
  getGoTypeName typeDef = Ok n -> isTypeDef typeDef = true.
Proof.
  destruct typeDef as [[s | m | k] |]; try reflexivity; unfold getGoTypeName; simpl;
    discriminate.
Qed.

Lemma addType_isTypeDef (val : option types.Value) (ng : NG) :
  isTypeDef val = true ->
  exists ng', addType val ng = Done tt ng' /\ w ng' = w ng /\ written ng' = written ng.
Proof.
  destruct val as [[s | m | k] |]; try discriminate; intros _; simpl.
  - exists ng. repeat split.
  - destruct (types.Has (types.Map m) (written ng) || types.Has (types.Map m) (toWrite ng));
      eexists; repeat split.
Qed.

Lemma addType_not_isTypeDef (val : option types.Value) (ng : NG) :
  isTypeDef val = false -> addType val ng = Panicked (UnexpectedTypedef val) ng.
Proof. destruct val as [[s | m | k] |]; try discriminate; reflexivity. Qed.

(** X1: [addType] panics exactly on nil and on a value that is neither a
    string nor a map, and then leaves the generator as it was.  On a
    string or a map it returns, whatever the map holds (a map of an unknown
    shape is registered like any other); it writes nothing, leaves
    [written] alone, and leaves [toWrite] as it was or with the value
    added at its end. *)
Theorem addType_panics_exactly (val : option types.Value) (ng : NG) :
  (isTypeDef val = false /\ addType val ng = Panicked (UnexpectedTypedef val) ng)
  \/ (isTypeDef val = true
      /\ exists ng', addType val ng = Done tt ng'
                     /\ w ng' = w ng /\ written ng' = written ng
                     /\ (toWrite ng' = toWrite ng
                         \/ exists v, val = Some v /\ isMap v = true
                                      /\ ~ In v (written ng) /\ ~ In v (toWrite ng)
                                      /\ toWrite ng' = toWrite ng ++ [v])).
Proof.
  destruct (isTypeDef val) eqn:E.
  - right. split; [reflexivity |].
    destruct (addType_isTypeDef val ng E) as (ng' & Ha & Hw & Hwr).
    exists ng'. repeat split; try assumption.
    destruct (Tracks_Done _ _ _ _ _ (Tracks_addType val) Ha) as [_ (added & Ht & Hn & H)].
    destruct val as [[s | m | k] |]; try discriminate.
    + left. simpl in Ha. injection Ha as <-. reflexivity.
    + destruct added as [| x added]; [left; rewrite Ht, app_nil_r; reflexivity |].
      right. exists (types.Map m).
      destruct (H x (or_introl eq_refl)) as ([<- | []] & _ & Hnw & Hnt).
      destruct added as [| y added].
      * repeat split; assumption.
      * exfalso. destruct (H y (or_intror (or_introl eq_refl))) as ([<- | []] & _).
        inversion Hn as [| ? ? Hnot _]. apply Hnot. left. reflexivity.
  - left. split; [reflexivity | apply addType_not_isTypeDef; exact E].
Qed.

(** ** The emitters, one by one *)

Lemma getGoTypeName_Map (m : types.mapData) :
  getGoTypeName (Some (types.Map m)) = getGoStructName (Some (types.Map m)).
Proof.
  unfold getGoTypeName. destruct (getGoStructName (Some (types.Map m))); reflexivity.
Qed.

Lemma getGoTypeName_resolves (typeDef : option types.Value) (n : string) :
  getGoStructName typeDef = Ok n -> exists ref, getGoTypeName typeDef = Ok ref.
Proof.
  intros H. unfold getGoTypeName. rewrite H. simpl.
  destruct typeDef as [[s | m | k] |]; eexists; reflexivity.
Qed.

Lemma getGoTypeName_fails (typeDef : option types.Value) (p : Panic) :
  getGoStructName typeDef = Fail p -> getGoTypeName typeDef = Fail p.
Proof. intros H. unfold getGoTypeName. rewrite H. reflexivity. Qed.

Lemma writeType_dispatch (m : types.mapData) (typ : string) (ng : NG) :
  types.Get (types.NewString "$type") m = Some (types.String typ) ->
  writeType m ng =
  if typ =? "noms.ListDef" then writeList m ng
  else if typ =? "noms.MapDef" then writeMap m ng
  else if typ =? "noms.SetDef" then writeSet m ng
  else if typ =? "noms.StructDef" then writeStruct m ng
  else Panicked (UnexpectedTypedef (Some (types.Map m))) ng.
Proof.
  intros Ht. unfold writeType, bind at 1. rewrite Ht. simpl.
  repeat match goal with |- context [if ?b then _ else _] => destruct b end; reflexivity.
Qed.

(** What [writeList] and [writeSet] have in common. *)
Lemma elem_emitter (tmpl : string -> string -> Block) (m : types.mapData) (ng : NG) :
  let elem := types.Get (types.NewString "elem") m in
  let c := addType elem ;;;
           StructName <- lift (getGoTypeName (Some (types.Map m))) ;;
           ElemName <- lift (getGoTypeName elem) ;;
           Execute (tmpl StructName ElemName) in
  match getGoStructName (Some (types.Map m)), getGoTypeName elem with
  | Ok sn, Ok en =>
      exists ng', c ng = Done tt ng' /\ w ng' = w ng ++ [tmpl sn en]
                  /\ written ng' = written ng
  | _, _ => exists p ng', c ng = Panicked p ng' /\ w ng' = w ng
  end.
Proof.
  intros elem c. unfold c, bind. rewrite getGoTypeName_Map.
  destruct (getGoTypeName elem) as [en | pe] eqn:Ee.
  - destruct (addType_isTypeDef elem ng (getGoTypeName_isTypeDef elem en Ee))
      as (ng1 & -> & Hw & Hwr).
    destruct (getGoStructName (Some (types.Map m))) as [sn | p]; simpl.
    + eexists. split; [reflexivity |]. simpl. rewrite Hw, Hwr. split; reflexivity.
    + exists p, ng1. split; [reflexivity | exact Hw].
  - pose proof (addType_w elem ng) as Hw.
    destruct (addType elem ng) as [[] ng1 | p1 ng1]; simpl in Hw;
      destruct (getGoStructName (Some (types.Map m))); simpl;
      eexists; eexists; (split; [reflexivity | exact Hw]).
Qed.

Lemma name_resolves_elem (m : types.mapData) (typ sn : string) :
  types.Get (types.NewString "$type") m = Some (types.String typ) ->
  typ = "noms.ListDef" \/ typ = "noms.SetDef" ->
  getGoStructName (Some (types.Map m)) = Ok sn ->
  exists en, getGoTypeName (types.Get (types.NewString "elem") m) = Ok en.
Proof.
  intros Ht Htyp Hn. rewrite getGoStructName_Map, Ht in Hn.
  destruct (getGoStructName (types.Get (types.NewString "elem") m)) as [e | p] eqn:Ee.
  - apply (getGoTypeName_resolves _ e Ee).
  - destruct Htyp as [-> | ->]; simpl in Hn; discriminate.
Qed.

(** X2: writing a list or set definition is all or nothing, and goes
    through exactly when the definition has a name.  When
    [getGoStructName] resolves the definition, [writeType] returns, having
    written one block, that of the list or set under this name with the
    reference name of the element, and [written] is as before; when it
    does not, [writeType] panics and has written nothing. *)
Theorem writeType_list_or_set (m : types.mapData) (typ : string) (ng : NG) :
  types.Get (types.NewString "$type") m = Some (types.String typ) ->
  typ = "noms.ListDef" \/ typ = "noms.SetDef" ->
  match getGoStructName (Some (types.Map m)) with
  | Ok sn =>
      exists en ng',
        getGoTypeName (types.Get (types.NewString "elem") m) = Ok en
        /\ writeType m ng = Done tt ng'
        /\ w ng' = w ng ++ [elemBlock typ sn en]
        /\ written ng' = written ng
  | Fail _ => exists p ng', writeType m ng = Panicked p ng' /\ w ng' = w ng
  end.
Proof.
  intros Ht Htyp. rewrite (writeType_dispatch m typ ng Ht).
  pose proof (name_resolves_elem m typ) as Helem. specialize (fun sn => Helem sn Ht Htyp).
  assert (Hem : forall tmpl,
    match getGoStructName (Some (types.Map m)) with
    | Ok sn =>
        exists en ng',
          getGoTypeName (types.Get (types.NewString "elem") m) = Ok en
          /\ (addType (types.Get (types.NewString "elem") m) ;;;
              StructName <- lift (getGoTypeName (Some (types.Map m))) ;;
              ElemName <- lift (getGoTypeName (types.Get (types.NewString "elem") m)) ;;
              Execute (tmpl StructName ElemName)) ng = Done tt ng'
          /\ w ng' = w ng ++ [tmpl sn en] /\ written ng' = written ng
    | Fail _ =>
        exists p ng',
          (addType (types.Get (types.NewString "elem") m) ;;;
           StructName <- lift (getGoTypeName (Some (types.Map m))) ;;
           ElemName <- lift (getGoTypeName (types.Get (types.NewString "elem") m)) ;;
           Execute (tmpl StructName ElemName)) ng = Panicked p ng' /\ w ng' = w ng
    end).
  { intros tmpl. pose proof (elem_emitter tmpl m ng) as H. cbv zeta in H.
    destruct (getGoStructName (Some (types.Map m))) as [sn | p].
    - destruct (Helem sn eq_refl) as [en Hen]. rewrite Hen in H.
      destruct H as (ng' & H). exists en, ng'. split; [exact Hen |].
      rewrite Hen. exact H.
    - exact H. }
  destruct Htyp as [-> | ->]; simpl.
  - apply (Hem listTempl).
  - apply (Hem setTempl).
Qed.

Lemma writeType_list_or_set_witness :
  exists en ng',
    getGoTypeName (Some Point) = Ok en
    /\ writeType (entriesOf (SetDef Point)) (New []) = Done tt ng'
    /\ w ng' = [] ++ [elemBlock "noms.SetDef" "PointSet" en]
    /\ written ng' = [].
Proof.
  apply (writeType_list_or_set (entriesOf (SetDef Point)) "noms.SetDef" (New []));
    [reflexivity | right; reflexivity].
Defined.

(** X3: writing a map definition is all or nothing, and goes through
    exactly when the definition has a name.  When [getGoStructName]
    resolves the definition, [writeType] returns, having written the one
    block of the map under this name with the reference names of the key
    and the value, and [written] is as before; when it does not,
    [writeType] panics and has written nothing. *)
Theorem writeType_map (m : types.mapData) (ng : NG) :
  types.Get (types.NewString "$type") m = Some (types.String "noms.MapDef") ->
  match getGoStructName (Some (types.Map m)) with
  | Ok sn =>
      exists kn vn ng',
        getGoTypeName (types.Get (types.NewString "key") m) = Ok kn
        /\ getGoTypeName (types.Get (types.NewString "value") m) = Ok vn
        /\ writeType m ng = Done tt ng'
        /\ w ng' = w ng ++ [mapTempl sn kn vn]
        /\ written ng' = written ng
  | Fail _ => exists p ng', writeType m ng = Panicked p ng' /\ w ng' = w ng
  end.
Proof.
  intros Ht.
  assert (HW : writeType m ng = writeMap m ng)
    by (rewrite (writeType_dispatch m _ ng Ht); reflexivity).
  rewrite HW. clear HW.
  destruct (getGoStructName (Some (types.Map m))) as [sn | p] eqn:En;
    [| apply (writeMap_unnamed m p ng En)].
  pose proof En as En'. rewrite getGoStructName_Map, Ht in En'. simpl in En'.
  destruct (getGoStructName (types.Get (types.NewString "key") m)) as [k | pk] eqn:Ek;
    [| discriminate].
  destruct (getGoStructName (types.Get (types.NewString "value") m)) as [v | pv] eqn:Ev;
    [| discriminate].
  destruct (getGoTypeName_resolves _ k Ek) as [kn Hkn].
  destruct (getGoTypeName_resolves _ v Ev) as [vn Hvn].
  destruct (addType_isTypeDef _ ng (getGoTypeName_isTypeDef _ kn Hkn))
    as (ng1 & Ha1 & Hw1 & Hwr1).
  destruct (addType_isTypeDef _ ng1 (getGoTypeName_isTypeDef _ vn Hvn))
    as (ng2 & Ha2 & Hw2 & Hwr2).
  exists kn, vn. eexists. split; [exact Hkn |]. split; [exact Hvn |].
  unfold writeMap, bind. rewrite Ha1, Ha2, getGoTypeName_Map, En, Hkn, Hvn. simpl.
  split; [reflexivity |]. simpl. rewrite Hw2, Hw1, Hwr2, Hwr1. split; reflexivity.
Qed.

Lemma writeType_map_witness :
  exists kn vn ng',
    getGoTypeName (Some (types.String "string")) = Ok kn
    /\ getGoTypeName (Some Point) = Ok vn
    /\ writeType (entriesOf (MapDef (types.String "string") Point)) (New []) = Done tt ng'
    /\ w ng' = [] ++ [mapTempl "StringPointMap" kn vn]
    /\ written ng' = [].
Proof.
  apply (writeType_map (entriesOf (MapDef (types.String "string") Point)) (New [])).
  reflexivity.
Defined.

(** X4: writing a field whose name is ASCII is all or nothing, and goes
    through exactly when the type of the field has a reference name (on
    ASCII names the model of [strings.Title] is Go's; other names are left
    out).  Then [writeField] returns,
    having written one field block, with that name as the type of the
    field, the field name in title case as the Go name and the field name
    as it is; [written] is as before.  Otherwise it panics and has
    written nothing: the check that [addType] makes on the value adds no
    panic of its own. *)
Theorem writeField_all_or_nothing
        (sn fn : string) (typeDef : option types.Value) (ng : NG) :
  isASCII fn = true ->
  match getGoTypeName typeDef with
  | Ok ft =>
      exists ng',
        writeField sn fn typeDef ng = Done tt ng'
        /\ w ng' = w ng ++ [fieldTempl sn ft (strings.Title fn) fn]
        /\ written ng' = written ng
  | Fail _ => exists p ng', writeField sn fn typeDef ng = Panicked p ng' /\ w ng' = w ng
  end.
Proof.
  intros _. unfold writeField, bind.
  destruct (getGoTypeName typeDef) as [ft | p] eqn:E.
  - destruct (addType_isTypeDef _ ng (getGoTypeName_isTypeDef _ ft E))
      as (ng1 & -> & Hw & Hwr).
    simpl. eexists. split; [reflexivity |]. simpl. rewrite Hw, Hwr. split; reflexivity.
  - pose proof (addType_w typeDef ng) as Hw.
    destruct (addType typeDef ng) as [[] ng1 | p1 ng1]; simpl in Hw; simpl;
      eexists; eexists; (split; [reflexivity | exact Hw]).
Qed.

Lemma writeField_all_or_nothing_witness :
  exists ng',
    writeField "User" "e_mail addr" (Some (ListDef Point)) (New []) = Done tt ng'
    /\ w ng' = [] ++ [fieldTempl "User" "PointList" "E_mail Addr" "e_mail addr"]
    /\ written ng' = [].
Proof.
  apply (writeField_all_or_nothing "User" "e_mail addr" (Some (ListDef Point)) (New [])).
  reflexivity.
Defined.

(** ** Structs, written or left half written *)

Lemma writeField_returns_iff (sn fn : string) (typeDef : option types.Value) (ng : NG) :
  (exists ng', writeField sn fn typeDef ng = Done tt ng')
  <-> isOk (getGoTypeName typeDef) = true.
Proof.
  unfold writeField, bind. destruct (getGoTypeName typeDef) as [ft | p] eqn:E; simpl.
  - destruct (addType_isTypeDef _ ng (getGoTypeName_isTypeDef _ ft E)) as (ng1 & -> & _).
    split; [reflexivity | intros _; eexists; reflexivity].
  - split; [| discriminate]. intros [ng' H].
    destruct (addType typeDef ng) as [[] ng1 | p1 ng1]; discriminate.
Qed.

Lemma Iter_returns_iff (sn : string) (m : types.mapData) (ng : NG) :
  (exists ng', Iter (writeStruct_func sn) m ng = Done tt ng')
  <-> forallb entryOk m = true.
Proof.
  revert ng. induction m as [| [k v] m IH]; intros ng.
  { simpl. split; [reflexivity | intros _; eexists; reflexivity]. }
  rewrite Iter_cons. simpl forallb. unfold entryOk at 1. simpl fst. simpl snd.
  destruct (isMetaKey k) eqn:EM.
  - rewrite (writeStruct_func_meta sn k v ng EM). simpl. apply IH.
  - destruct (isFieldKey k) eqn:EF; simpl.
    + destruct (writeStruct_func_field sn k v EF) as (sk & _ & ->).
      pose proof (writeField_returns_iff sn sk (Some v) ng) as HF.
      destruct (isOk (getGoTypeName (Some v))); simpl.
      * destruct (proj2 HF eq_refl) as [ng1 ->]. apply IH.
      * split; [| discriminate]. intros [ng' H].
        destruct (writeField sn sk (Some v) ng) as [[] ng1 | p ng1]; [| discriminate].
        assert (false = true) by (apply HF; eexists; reflexivity). discriminate.
    + destruct (writeStruct_func_bad sn k v ng EM EF) as [p ->].
      split; [intros [ng' H]; discriminate | discriminate].
Qed.

(** X5: [writeStruct] returns exactly when the struct has a name and each
    of its entries is metadata (a string key that begins with the sigil)
    or a field (any other string key that is not empty) whose type has a
    reference name.  An entry whose key is not a string or is the empty
    string, or a field whose type has no name, makes it panic. *)
Theorem writeStruct_returns_iff (val : types.mapData) (ng : NG) :
  (exists ng', writeStruct val ng = Done tt ng')
  <-> (exists sn, getGoStructName (Some (types.Map val)) = Ok sn)
      /\ forallb entryOk val = true.
Proof.
  unfold writeStruct, bind at 1 2 3. rewrite getGoTypeName_Map.
  destruct (getGoStructName (Some (types.Map val))) as [sn | p]; simpl.
  - rewrite (Iter_returns_iff sn val). split.
    + intros H. split; [exists sn; reflexivity | exact H].
    + intros [_ H]. exact H.
  - split.
    + intros [ng' H]. discriminate.
    + intros [[sn H] _]. discriminate.
Qed.

(** X6: [writeStruct] is not all or nothing.  When the struct has no name
    it panics with that panic, the generator as it was.  When it has one,
    the block of the struct is written whatever follows, and after it
    field blocks for the first of the declared fields, in order, as far as
    the iteration got: for all of them when every entry is metadata or a
    field with a named type. *)
Theorem writeStruct_partial (val : types.mapData) (ng : NG) :
  (forall p, getGoStructName (Some (types.Map val)) = Fail p ->
             writeStruct val ng = Panicked p ng)
  /\ (forall sn, getGoStructName (Some (types.Map val)) = Ok sn ->
        exists out rest,
          w (state (writeStruct val ng)) = w ng ++ structTempl sn :: out
          /\ Forall (fieldBlockOf sn) out
          /\ declaredFields val = fieldNames out ++ rest
          /\ (forallb entryOk val = true -> rest = [])).
Proof.
  split.
  - intros p H. unfold writeStruct, bind. rewrite getGoTypeName_Map, H. reflexivity.
  - intros sn H. unfold writeStruct, bind at 1 2 3. rewrite getGoTypeName_Map, H. simpl.
    set (ng1 := {| w := w ng ++ [structTempl sn]; written := written ng;
                   toWrite := toWrite ng |}).
    destruct (Iter_fields sn val ng1) as (out & rest & Hw & Hf & Hd & Hr).
    exists out, rest. repeat split; try assumption.
    + rewrite Hw. simpl. rewrite <- app_assoc. reflexivity.
    + intros Hall. destruct (proj2 (Iter_returns_iff sn val ng1) Hall) as [ng' H'].
      apply (Hr ng' H').
Qed.

Lemma writeStruct_partial_witness :
  exists out rest,
    w (state (writeStruct
                (entriesOf (StructDef "User" [("email", types.String "string");
                                              ("age", types.String "int8");
                                              ("name", types.String "string")]))
                (New [])))
    = [] ++ structTempl "User" :: out
    /\ Forall (fieldBlockOf "User") out
    /\ ["email"; "age"; "name"] = fieldNames out ++ rest
    /\ (false = true -> rest = []).
Proof.
  exact (proj2 (writeStruct_partial
                  (entriesOf (StructDef "User" [("email", types.String "string");
                                                ("age", types.String "int8");
                                                ("name", types.String "string")]))
                  (New [])) "User" eq_refl).
Defined.

Lemma writeStruct_returns_iff_witness :
  exists ng', writeStruct (entriesOf User) (New []) = Done tt ng'.
Proof.
  apply (proj2 (writeStruct_returns_iff (entriesOf User) (New []))).
  split; [exists "User"; reflexivity | reflexivity].
Defined.

(** ** Parts that are missing *)

(** X7: what [writeType] does with a definition that lacks a part.
    Without a $type, or with a $type that is not a string, the type
    assertion panics; a list or set without an elem, or whose elem is
    neither a string nor a map, and a map without a key, panic in
    [addType]; a struct without a $name that is a string panics on the
    type assertion.  In all of these the generator is left as it was.  A
    map with a key but without a value panics in [addType] as well, but
    after the key was registered: nothing is written, and the key, when it
    is a map that was in neither set, is left in [toWrite]. *)
Theorem missing_parts_panic :
  (forall m ng v,
     types.Get (types.NewString "$type") m = v ->
     (forall s, v <> Some (types.String s)) ->
     writeType m ng = Panicked (TypeAssertion v) ng)
  /\ (forall m typ ng elem,
        types.Get (types.NewString "$type") m = Some (types.String typ) ->
        typ = "noms.ListDef" \/ typ = "noms.SetDef" ->
        types.Get (types.NewString "elem") m = elem ->
        isTypeDef elem = false ->
        writeType m ng = Panicked (UnexpectedTypedef elem) ng)
  /\ (forall m ng key,
        types.Get (types.NewString "$type") m = Some (types.String "noms.MapDef") ->
        types.Get (types.NewString "key") m = key ->
        isTypeDef key = false ->
        writeType m ng = Panicked (UnexpectedTypedef key) ng)
  /\ (forall m ng value,
        types.Get (types.NewString "$type") m = Some (types.String "noms.MapDef") ->
        isTypeDef (types.Get (types.NewString "key") m) = true ->
        types.Get (types.NewString "value") m = value ->
        isTypeDef value = false ->
        writeType m ng
        = Panicked (UnexpectedTypedef value)
            (state (addType (types.Get (types.NewString "key") m) ng)))
  /\ (forall m ng name,
        types.Get (types.NewString "$type") m = Some (types.String "noms.StructDef") ->
        types.Get (types.NewString "$name") m = name ->
        (forall s, name <> Some (types.String s)) ->
        writeType m ng = Panicked (TypeAssertion name) ng).
Proof.
  repeat apply conj.
  - intros m ng v Ht Hv. unfold writeType, bind. rewrite Ht.
    destruct v as [[s | m' | k] |]; try reflexivity. exfalso. apply (Hv s). reflexivity.
  - intros m typ ng elem Ht Htyp He Hn. rewrite (writeType_dispatch m typ ng Ht).
    destruct Htyp as [-> | ->]; simpl; unfold writeList, writeSet, bind;
      rewrite He, (addType_not_isTypeDef elem ng Hn); reflexivity.
  - intros m ng key Ht Hk Hn.
    assert (HW : writeType m ng = writeMap m ng)
      by (rewrite (writeType_dispatch m _ ng Ht); reflexivity).
    rewrite HW. unfold writeMap, bind.
    rewrite Hk, (addType_not_isTypeDef key ng Hn). reflexivity.
  - intros m ng value Ht Hk Hv Hn.
    assert (HW : writeType m ng = writeMap m ng)
      by (rewrite (writeType_dispatch m _ ng Ht); reflexivity).
    rewrite HW. unfold writeMap, bind.
    destruct (addType_isTypeDef _ ng Hk) as (ng1 & -> & _).
    rewrite Hv, (addType_not_isTypeDef value ng1 Hn). reflexivity.
  - intros m ng name Ht Hname Hn.
    assert (HW : writeType m ng = writeStruct m ng)
      by (rewrite (writeType_dispatch m _ ng Ht); reflexivity).
    rewrite HW. unfold writeStruct, bind.
    rewrite getGoTypeName_Map, getGoStructName_Map, Ht. simpl. rewrite Hname.
    destruct name as [[s | m' | k] |]; try reflexivity. exfalso. apply (Hn s). reflexivity.
Qed.

Lemma missing_parts_panic_witness :
  writeType [(types.String "$type", types.String "noms.ListDef")] (New [])
  = Panicked (UnexpectedTypedef None) (New [])
  /\ writeType [(types.String "$type", types.String "noms.MapDef");
                (types.String "key", Point)] (New [])
     = Panicked (UnexpectedTypedef None)
         {| w := []; written := []; toWrite := [Point] |}.
Proof.
  destruct missing_parts_panic as (_ & HElem & _ & HValue & _).
  split.
  - apply (HElem _ "noms.ListDef" (New []) None);
      [reflexivity | left; reflexivity | reflexivity | reflexivity].
  - apply (HValue [(types.String "$type", types.String "noms.MapDef");
                   (types.String "key", Point)] (New []) None); reflexivity.
Defined.

(** ** Reference names in the templates *)

(** X8: the names that the templates convert with.  The reference name
    of a recognised primitive begins with the package of the value
    library, so that [toNomsValue] gives it no conversion; [fromNomsValue]
    gives it the conversion named after it, except for the primitive
    value, whose reference name is the one name that [fromNomsValue]
    gives no conversion.  The reference name of a map is its name, without
    the package. *)
Theorem reference_names :
  (forall name, isNomsTypeName name = true ->
     exists ref,
       getGoTypeName (Some (types.String name)) = Ok ref
       /\ ref = ("types." ++ strings.Title name)%string
       /\ toNomsValue ref = ""
       /\ (fromNomsValue ref = "" <-> name = "value")
       /\ (name <> "value" -> fromNomsValue ref = (ref ++ "FromVal")%string))
  /\ (forall m, getGoTypeName (Some (types.Map m)) = getGoStructName (Some (types.Map m)))
  /\ (forall n, fromNomsValue n = "" <-> n = "types.Value")
  /\ (forall n, toNomsValue n = ".NomsValue()" <-> strings.HasPrefix n "types." = false).
Proof.
  repeat apply conj.
  - intros name H. exists ("types." ++ strings.Title name)%string.
    unfold getGoTypeName. rewrite getGoStructName_String, H.
    split; [reflexivity |]. split; [reflexivity |].
    each_name H; (split; [reflexivity |]);
      (split; [first [split; [discriminate | intros E; discriminate] | tauto]
              | first [reflexivity | intros E; exfalso; apply E; reflexivity]]).
  - apply getGoTypeName_Map.
  - intros n. unfold fromNomsValue. destruct (n =? "types.Value") eqn:E.
    + apply String.eqb_eq in E. tauto.
    + apply String.eqb_neq in E. split; [| tauto].
      destruct n; discriminate.
  - intros n. unfold toNomsValue. destruct (strings.HasPrefix n "types.");
      split; first [reflexivity | discriminate].
Qed.

Lemma reference_names_witness :
  exists ref,
    getGoTypeName (Some (types.String "blob")) = Ok ref
    /\ ref = ("types." ++ strings.Title "blob")%string
    /\ toNomsValue ref = ""
    /\ (fromNomsValue ref = "" <-> "blob" = "value")
    /\ ("blob" <> "value" -> fromNomsValue ref = (ref ++ "FromVal")%string).
Proof.
  apply (proj1 reference_names "blob"). reflexivity.
Defined.

(** ** Writing does not depend on what was written before *)

Lemma result_writeType (m : types.mapData) (ng1 ng2 : NG) :
  result (writeType m ng1) = result (writeType m ng2).
Proof.
  destruct (IsUniform_writeType m) as (out & r & H).
  rewrite (proj2 (H ng1)), (proj2 (H ng2)). reflexivity.
Qed.

Lemma writable_Done (m : types.mapData) (ng : NG) :
  writable (types.Map m) = true <-> exists ng', writeType m ng = Done tt ng'.
Proof.
  unfold writable. rewrite (result_writeType m (New []) ng).
  destruct (writeType m ng) as [[] ng' | p ng']; simpl.
  - split; [intros _; exists ng'; reflexivity | reflexivity].
  - split; [discriminate | intros [ng'' H]; discriminate].
Qed.

(** X9: what [writeType] does with a definition does not depend on the
    generator it finds: started in two states, it ends the same way
    (returns, or panics with the same panic) and appends the same blocks
    to the writer. *)
Theorem writeType_state_independent (m : types.mapData) (ng1 ng2 : NG) :
  result (writeType m ng1) = result (writeType m ng2)
  /\ exists out,
       w (state (writeType m ng1)) = w ng1 ++ out
       /\ w (state (writeType m ng2)) = w ng2 ++ out.
Proof.
  destruct (IsUniform_writeType m) as (out & r & H). split.
  - rewrite (proj2 (H ng1)), (proj2 (H ng2)). reflexivity.
  - exists out. split; apply H.
Qed.

(** ** The whole run *)

Section Run.

Variable Any : types.Set_ -> types.Value.
Hypothesis Any_In : forall s, types.Empty s = false -> In (Any s) s.
Variable root : types.mapData.
Variable pre : list Block.

Lemma drain_written_writable (fuel : nat) (ng ng' : NG) :
  Inv root pre ng ->
  (forall t, In t (written ng) -> writable t = true) ->
  drain Any fuel ng = Some (Done tt ng') ->
  forall t, In t (written ng') -> writable t = true.
Proof.
  revert ng. induction fuel as [| fuel IH]; intros ng HI Hall H; simpl in H;
    destruct (types.Empty (toWrite ng)) eqn:HE;
    try (injection H as <-; exact Hall); try discriminate.
  destruct (writeNext_Inv Any Any_In root pre ng HI HE) as (m & _ & Hstep & Hwr & HI1).
  destruct (writeNext Any ng) as [[] ng1 | p ng1]; simpl in Hwr, HI1; [| discriminate].
  apply (IH ng1 HI1); [| exact H].
  intros t Ht. rewrite Hwr in Ht. apply in_app_or in Ht.
  destruct Ht as [Ht | [<- | []]]; [apply Hall; exact Ht |].
  apply (writable_Done m (markWritten (types.Map m) ng)). exists ng1.
  symmetry. exact Hstep.
Qed.

Lemma drain_returns (fuel : nat) (ng : NG) (o : Outcome unit) :
  Inv root pre ng ->
  (forall t, Reachable root t -> writable t = true) ->
  drain Any fuel ng = Some o -> exists ng', o = Done tt ng'.
Proof.
  revert ng. induction fuel as [| fuel IH]; intros ng HI Hall H; simpl in H;
    destruct (types.Empty (toWrite ng)) eqn:HE;
    try (injection H as <-; eexists; reflexivity); try discriminate.
  destruct (writeNext_Inv Any Any_In root pre ng HI HE) as (m & Hm & Hstep & _ & HI1).
  assert (Hreach : Reachable root (types.Map m)).
  { destruct HI as (_ & _ & _ & HR & _). apply HR. right. rewrite <- Hm.
    apply Any_In. exact HE. }
  destruct (proj1 (writable_Done m (markWritten (types.Map m) ng)) (Hall _ Hreach))
    as [ng1 Hng1].
  rewrite Hstep, Hng1 in H, HI1. apply (IH ng1 HI1 Hall H).
Qed.

(** A panic of the loop is the panic of [writeType] on the definition
    that was moved to [written] last. *)
Lemma drain_panic (fuel : nat) (ng ng' : NG) (p : Panic) :
  Inv root pre ng ->
  drain Any fuel ng = Some (Panicked p ng') ->
  exists m before,
    written ng' = before ++ [types.Map m]
    /\ result (writeType m (New [])) = Fail p.
Proof.
  revert ng. induction fuel as [| fuel IH]; intros ng HI H; simpl in H;
    destruct (types.Empty (toWrite ng)) eqn:HE; try discriminate.
  destruct (writeNext_Inv Any Any_In root pre ng HI HE) as (m & _ & Hstep & Hwr & HI1).
  destruct (writeNext Any ng) as [[] ng1 | p1 ng1] eqn:E; simpl in Hwr, HI1.
  - apply (IH ng1 HI1 H).
  - injection H as -> ->. exists m, (written ng). split; [exact Hwr |].
    rewrite (result_writeType m (New []) (markWritten (types.Map m) ng)), <- Hstep.
    reflexivity.
Qed.

End Run.

Lemma AnyLast_In (s : types.Set_) : types.Empty s = false -> In (AnyLast s) s.
Proof.
  destruct s as [| x s]; [discriminate |]. intros _.
  unfold AnyLast. destruct (exists_last (l := x :: s)) as (l & a & ->); [discriminate |].
  rewrite last_last. apply in_or_app. right. left. reflexivity.
Qed.

Lemma all_writable (val : types.mapData) :
  forallb writable (reachable val) = true
  <-> forall t, Reachable val t -> writable t = true.
Proof.
  rewrite forallb_forall. split; intros H t Ht; apply H; apply reachable_spec; exact Ht.
Qed.

(** X10: [WriteGo] returns exactly when every definition that can be
    reached from the root is one that [writeType] writes without a panic:
    given passes enough, whatever member [Any] picks, the run ends
    normally if and only if that holds of each of the reachable maps. *)
Theorem WriteGo_returns_iff
        (Any : types.Set_ -> types.Value)
        (Any_In : forall s, types.Empty s = false -> In (Any s) s)
        (fuel : nat) (val : types.mapData) (pkg : string) (w0 : list Block) :
  List.length (reachable val) <= fuel ->
  ((exists ng, WriteGo Any fuel val pkg (New w0) = Some (Done tt ng))
   <-> forallb writable (reachable val) = true).
Proof.
  intros Hfuel. rewrite WriteGo_drain, all_writable.
  destruct (started_Inv val pkg w0) as [HI HC]. split.
  - intros [ng H] t Ht.
    apply (drain_written_writable Any Any_In val _ fuel _ ng HI); [intros x [] | exact H |].
    destruct (drain_Closed Any Any_In val _ fuel _ ng HI HC H) as [HC' Hnil].
    apply (Closed_all val ng t HC' Hnil Ht).
  - intros Hall.
    destruct (drain_terminates Any Any_In val _ (List.length (reachable val)) _ HI)
      as [o Ho]; [simpl; lia |].
    destruct (drain_returns Any Any_In val _ _ _ o HI Hall Ho) as [ng ->].
    exists ng.
    replace fuel with (List.length (reachable val) + (fuel - List.length (reachable val)))
      by lia.
    apply drain_more_fuel. exact Ho.
Qed.

Lemma WriteGo_returns_iff_witness :
  exists ng,
    WriteGo AnyLast 2 (entriesOf (ListDef Point)) "main" (New []) = Some (Done tt ng).
Proof.
  apply (proj2 (WriteGo_returns_iff AnyLast AnyLast_In 2 (entriesOf (ListDef Point))
                  "main" [] (le_n 2))).
  reflexivity.
Defined.

(** X11: the order in which [Any] hands out the members of [toWrite] does
    not decide whether [WriteGo] returns, nor what it writes apart from
    the order.  When a run returns with one way of picking, a run with any
    other way, given passes enough, returns as well; both have written the
    header and then what is rendered for the same definitions, each once,
    in the order in which they were moved to [written]. *)
Theorem WriteGo_any_order
        (Any1 Any2 : types.Set_ -> types.Value)
        (Any1_In : forall s, types.Empty s = false -> In (Any1 s) s)
        (Any2_In : forall s, types.Empty s = false -> In (Any2 s) s)
        (fuel1 fuel2 : nat) (val : types.mapData) (pkg : string) (w0 : list Block)
        (ng1 : NG) :
  WriteGo Any1 fuel1 val pkg (New w0) = Some (Done tt ng1) ->
  List.length (reachable val) <= fuel2 ->
  exists ng2,
    WriteGo Any2 fuel2 val pkg (New w0) = Some (Done tt ng2)
    /\ Permutation (written ng1) (written ng2)
    /\ w ng1 = w0 ++ headerTmpl pkg :: flat_map rendered (written ng1)
    /\ w ng2 = w0 ++ headerTmpl pkg :: flat_map rendered (written ng2).
Proof.
  rewrite !WriteGo_drain. intros H1 Hfuel.
  destruct (started_Inv val pkg w0) as [HI HC].
  assert (Hall : forall t, Reachable val t -> writable t = true).
  { intros t Ht.
    apply (drain_written_writable Any1 Any1_In val _ fuel1 _ ng1 HI); [intros x [] | exact H1 |].
    destruct (drain_Closed Any1 Any1_In val _ fuel1 _ ng1 HI HC H1) as [HC' Hnil].
    apply (Closed_all val ng1 t HC' Hnil Ht). }
  destruct (drain_terminates Any2 Any2_In val _ (List.length (reachable val)) _ HI)
    as [o Ho]; [simpl; lia |].
  destruct (drain_returns Any2 Any2_In val _ _ _ o HI Hall Ho) as [ng2 ->].
  assert (H2 : drain Any2 fuel2 (started val pkg w0) = Some (Done tt ng2)).
  { replace fuel2 with (List.length (reachable val) + (fuel2 - List.length (reachable val)))
      by lia.
    apply drain_more_fuel. exact Ho. }
  exists ng2. split; [exact H2 |].
  pose proof (drain_Inv Any1 Any1_In val _ fuel1 _ _ HI H1) as (Hn1 & _ & _ & HR1 & Hw1).
  pose proof (drain_Inv Any2 Any2_In val _ fuel2 _ _ HI H2) as (Hn2 & _ & _ & HR2 & Hw2).
  destruct (drain_Closed Any1 Any1_In val _ fuel1 _ ng1 HI HC H1) as [HC1 Hnil1].
  destruct (drain_Closed Any2 Any2_In val _ fuel2 _ ng2 HI HC H2) as [HC2 Hnil2].
  simpl state in *. repeat split.
  - apply NoDup_Permutation; [exact Hn1 | exact Hn2 |]. intros t. split; intros Ht.
    + apply (Closed_all val ng2 t HC2 Hnil2). apply HR1. left. exact Ht.
    + apply (Closed_all val ng1 t HC1 Hnil1). apply HR2. left. exact Ht.
  - rewrite Hw1, <- app_assoc. reflexivity.
  - rewrite Hw2, <- app_assoc. reflexivity.
Qed.

Lemma WriteGo_any_order_witness :
  exists ng1 ng2,
    WriteGo AnyFirst 3 (entriesOf (MapDef Point (ListDef Point))) "main" (New [])
    = Some (Done tt ng1)
    /\ WriteGo AnyLast 3 (entriesOf (MapDef Point (ListDef Point))) "main" (New [])
       = Some (Done tt ng2)
    /\ Permutation (written ng1) (written ng2)
    /\ w ng1 = [] ++ headerTmpl "main" :: flat_map rendered (written ng1)
    /\ w ng2 = [] ++ headerTmpl "main" :: flat_map rendered (written ng2).
Proof.
  eassert (H1 : WriteGo AnyFirst 3 (entriesOf (MapDef Point (ListDef Point))) "main" (New [])
                = Some (Done tt _)) by (vm_compute; reflexivity).
  destruct (WriteGo_any_order AnyFirst AnyLast AnyFirst_In AnyLast_In 3 3 _ "main" [] _ H1)
    as (ng2 & H2 & HP & Hw1 & Hw2); [vm_compute; lia |].
  eexists. exists ng2. split; [exact H1 |]. repeat split; assumption.
Defined.

(** X12: the sets when [WriteGo] ends.  However the run ends, no member
    comes twice in [written] or in [toWrite], no definition is in both,
    and every member of either can be reached from the root.  When the run
    returns, [toWrite] is empty and [written] holds the definitions that
    [reachable] lists, in some order. *)
Theorem WriteGo_final_sets
        (Any : types.Set_ -> types.Value)
        (Any_In : forall s, types.Empty s = false -> In (Any s) s)
        (fuel : nat) (val : types.mapData) (pkg : string) (w0 : list Block)
        (o : Outcome unit) :
  WriteGo Any fuel val pkg (New w0) = Some o ->
  NoDup (written (state o) ++ toWrite (state o))
  /\ (forall t, In t (written (state o) ++ toWrite (state o)) -> Reachable val t)
  /\ (forall ng, o = Done tt ng ->
        toWrite ng = [] /\ Permutation (written ng) (reachable val)).
Proof.
  rewrite WriteGo_drain. intros H.
  destruct (started_Inv val pkg w0) as [HI HC].
  pose proof (drain_Inv Any Any_In val _ fuel _ o HI H) as (Hnw & Hnt & HD & HR & _).
  repeat apply conj.
  - apply NoDup_app; assumption.
  - intros t Ht. apply HR. apply in_app_or. exact Ht.
  - intros ng ->.
    destruct (drain_Closed Any Any_In val _ fuel _ ng HI HC H) as [HC' Hnil].
    split; [exact Hnil |].
    apply NoDup_Permutation; [exact Hnw | apply reachable_NoDup |].
    intros t. rewrite reachable_spec. split; intros Ht.
    + apply HR. left. exact Ht.
    + apply (Closed_all val ng t HC' Hnil Ht).
Qed.

Lemma WriteGo_final_sets_witness :
  exists ng,
    WriteGo AnyFirst 3 (entriesOf (MapDef Point (ListDef Point))) "main" (New [])
    = Some (Done tt ng)
    /\ toWrite ng = []
    /\ Permutation (written ng) (reachable (entriesOf (MapDef Point (ListDef Point)))).
Proof.
  eassert (H : WriteGo AnyFirst 3 (entriesOf (MapDef Point (ListDef Point))) "main" (New [])
               = Some (Done tt _)) by (vm_compute; reflexivity).
  destruct (WriteGo_final_sets AnyFirst AnyFirst_In 3 _ "main" [] _ H) as (_ & _ & HDone).
  eexists. split; [exact H |]. apply HDone. reflexivity.
Defined.

(** X13: where a panic of [WriteGo] comes from.  The type assertion on
    the member taken from [toWrite] never fails, for the set holds maps
    only; a run that panics does so in [writeType], on the definition that
    was moved to [written] last, a definition reachable from the root,
    and with the panic that [writeType] ends in on this definition in any
    state. *)
Theorem WriteGo_panic_origin
        (Any : types.Set_ -> types.Value)
        (Any_In : forall s, types.Empty s = false -> In (Any s) s)
        (fuel : nat) (val : types.mapData) (pkg : string) (w0 : list Block)
        (p : Panic) (ng : NG) :
  WriteGo Any fuel val pkg (New w0) = Some (Panicked p ng) ->
  exists m before,
    written ng = before ++ [types.Map m]
    /\ Reachable val (types.Map m)
    /\ writable (types.Map m) = false
    /\ forall ng0, exists ng0', writeType m ng0 = Panicked p ng0'.
Proof.
  rewrite WriteGo_drain. intros H.
  destruct (started_Inv val pkg w0) as [HI _].
  destruct (drain_panic Any Any_In val _ fuel _ ng p HI H) as (m & before & Hwr & Hres).
  pose proof (drain_Inv Any Any_In val _ fuel _ _ HI H) as (_ & _ & _ & HR & _).
  exists m, before. repeat apply conj.
  - exact Hwr.
  - apply HR. left. simpl. rewrite Hwr. apply in_or_app. right. left. reflexivity.
  - unfold writable. rewrite Hres. reflexivity.
  - intros ng0. rewrite (result_writeType m (New []) ng0) in Hres.
    destruct (writeType m ng0) as [[] ng0' | p0 ng0']; [discriminate |].
    injection Hres as ->. exists ng0'. reflexivity.
Qed.

Lemma WriteGo_panic_origin_witness :
  exists m before,
    [ListDef (StructDef "Bad" [("", types.String "int32")]);
     StructDef "Bad" [("", types.String "int32")]]
    = before ++ [types.Map m]
    /\ Reachable (entriesOf (ListDef (StructDef "Bad" [("", types.String "int32")])))
                 (types.Map m)
    /\ writable (types.Map m) = false
    /\ forall ng0, exists ng0', writeType m ng0 = Panicked IndexOutOfRange ng0'.
Proof.
  eassert (H : WriteGo AnyFirst 2
                 (entriesOf (ListDef (StructDef "Bad" [("", types.String "int32")])))
                 "main" (New [])
               = Some (Panicked IndexOutOfRange _)) by (vm_compute; reflexivity).
  apply (WriteGo_panic_origin AnyFirst AnyFirst_In 2 _ "main" [] _ _ H).
Defined.

(** X14: a generator that is used again writes no definition a second
    time.  After a run that returned, [WriteGo] on the same generator, for
    the same root or for any definition that was reachable from it,
    writes the header and nothing else, and leaves the sets as they
    were. *)
Theorem WriteGo_again
        (Any : types.Set_ -> types.Value)
        (Any_In : forall s, types.Empty s = false -> In (Any s) s)
        (fuel : nat) (val : types.mapData) (pkg : string) (w0 : list Block) (ng : NG) :
  WriteGo Any fuel val pkg (New w0) = Some (Done tt ng) ->
  forall (Any' : types.Set_ -> types.Value) (fuel' : nat) (val' : types.mapData)
         (pkg' : string),
    Reachable val (types.Map val') ->
    WriteGo Any' fuel' val' pkg' ng
    = Some (Done tt {| w := w ng ++ [headerTmpl pkg']; written := written ng;
                       toWrite := [] |}).
Proof.
  rewrite WriteGo_drain. intros H Any' fuel' val' pkg' Hreach.
  destruct (started_Inv val pkg w0) as [HI HC].
  destruct (drain_Closed Any Any_In val _ fuel _ ng HI HC H) as [HC' Hnil].
  pose proof (Closed_all val ng _ HC' Hnil Hreach) as Hin.
  apply Has_In in Hin.
  unfold WriteGo, bind, Execute. cbn -[types.Has]. rewrite Hin. cbn -[types.Has].
  rewrite Hnil. destruct fuel'; reflexivity.
Qed.

Lemma WriteGo_again_witness :
  exists ng,
    WriteGo AnyFirst 2 (entriesOf (ListDef Point)) "main" (New []) = Some (Done tt ng)
    /\ WriteGo AnyLast 0 (entriesOf Point) "other" ng
       = Some (Done tt {| w := w ng ++ [headerTmpl "other"]; written := written ng;
                          toWrite := [] |}).
Proof.
  eassert (H : WriteGo AnyFirst 2 (entriesOf (ListDef Point)) "main" (New [])
               = Some (Done tt _)) by (vm_compute; reflexivity).
  eexists. split; [exact H |].
  apply (WriteGo_again AnyFirst AnyFirst_In 2 _ "main" [] _ H AnyLast 0 (entriesOf Point)
           "other").
  apply (Reachable_ref _ (entriesOf (ListDef Point)) Point);
    [apply Reachable_root | left; reflexivity | reflexivity].
Defined.

(** ** One block for each type *)

Lemma typeBlockNames_app (a b : list Block) :
  typeBlockNames (a ++ b) = typeBlockNames a ++ typeBlockNames b.
Proof. apply flat_map_app. Qed.

Lemma typeBlockNames_fields (sn : string) (out : list Block) :
  Forall (fieldBlockOf sn) out -> typeBlockNames out = [].
Proof.
  induction 1 as [| b out (ft & fn & ->) _ IH]; [reflexivity | exact IH].
Qed.

Lemma writeMap_Done (m : types.mapData) (ng ng' : NG) :
  writeMap m ng = Done tt ng' ->
  exists sn kn vn,
    getGoStructName (Some (types.Map m)) = Ok sn /\ w ng' = w ng ++ [mapTempl sn kn vn].
Proof.
  unfold writeMap. intros H.
  apply bind_Done in H. destruct H as ([] & ng1 & Ha1 & H).
  apply bind_Done in H. destruct H as ([] & ng2 & Ha2 & H).
  apply bind_Done in H. destruct H as (sn & ng3 & Hsn & H). apply lift_Done in Hsn.
  apply bind_Done in H. destruct H as (kn & ng4 & Hkn & H). apply lift_Done in Hkn.
  apply bind_Done in H. destruct H as (vn & ng5 & Hvn & H). apply lift_Done in Hvn.
  destruct Hsn as [Hsn ->], Hkn as [_ ->], Hvn as [_ ->].
  injection H as <-. exists sn, kn, vn. rewrite <- getGoTypeName_Map. split; [exact Hsn |].
  simpl. pose proof (f_equal (fun o => w (state o)) Ha1) as W1.
  pose proof (f_equal (fun o => w (state o)) Ha2) as W2.
  simpl in W1, W2. rewrite addType_w in W1, W2. rewrite <- W2, <- W1. reflexivity.
Qed.

Lemma elem_emitter_Done (tmpl : string -> string -> Block) (m : types.mapData)
      (ng ng' : NG) :
  (addType (types.Get (types.NewString "elem") m) ;;;
   StructName <- lift (getGoTypeName (Some (types.Map m))) ;;
   ElemName <- lift (getGoTypeName (types.Get (types.NewString "elem") m)) ;;
   Execute (tmpl StructName ElemName)) ng = Done tt ng' ->
  exists sn en,
    getGoStructName (Some (types.Map m)) = Ok sn /\ w ng' = w ng ++ [tmpl sn en].
Proof.
  intros H.
  apply bind_Done in H. destruct H as ([] & ng1 & Ha1 & H).
  apply bind_Done in H. destruct H as (sn & ng3 & Hsn & H). apply lift_Done in Hsn.
  apply bind_Done in H. destruct H as (en & ng4 & Hen & H). apply lift_Done in Hen.
  destruct Hsn as [Hsn ->], Hen as [_ ->].
  injection H as <-. exists sn, en. rewrite <- getGoTypeName_Map. split; [exact Hsn |].
  simpl. pose proof (f_equal (fun o => w (state o)) Ha1) as W1.
  simpl in W1. rewrite addType_w in W1. rewrite <- W1. reflexivity.
Qed.

(** What is rendered for a definition that can be written holds one type
    block, and that under the name of the definition. *)
Lemma rendered_typeBlockNames (m : types.mapData) :
  writable (types.Map m) = true ->
  map Ok (typeBlockNames (rendered (types.Map m))) = [getGoStructName (Some (types.Map m))].
Proof.
  intros Hw. destruct (proj1 (writable_Done m (New [])) Hw) as [ng' H].
  unfold rendered. rewrite H. simpl state.
  destruct (types.Get (types.NewString "$type") m) as [[typ | m' | k] |] eqn:Ht;
    try (unfold writeType, bind in H; rewrite Ht in H; discriminate).
  rewrite (writeType_dispatch m typ _ Ht) in H.
  destruct (typ =? "noms.ListDef").
  { destruct (elem_emitter_Done listTempl m _ _ H) as (sn & en & -> & ->). reflexivity. }
  destruct (typ =? "noms.MapDef").
  { destruct (writeMap_Done m _ _ H) as (sn & kn & vn & -> & ->). reflexivity. }
  destruct (typ =? "noms.SetDef").
  { destruct (elem_emitter_Done setTempl m _ _ H) as (sn & en & -> & ->). reflexivity. }
  destruct (typ =? "noms.StructDef"); [| discriminate].
  destruct (writeStruct_Done m _ _ H) as (sn & out & Hsn & -> & Hf & _).
  rewrite getGoTypeName_Map in Hsn. rewrite Hsn. simpl.
  rewrite (typeBlockNames_fields sn out Hf). reflexivity.
Qed.

Lemma rendered_all_typeBlockNames (l : list types.Value) :
  (forall t, In t l -> isMap t = true /\ writable t = true) ->
  map Ok (typeBlockNames (flat_map rendered l))
  = map (fun t => getGoStructName (Some t)) l.
Proof.
  induction l as [| t l IH]; intros H; [reflexivity |].
  simpl flat_map. rewrite typeBlockNames_app, map_app, IH
    by (intros x Hx; apply H; right; exact Hx).
  destruct (H t (or_introl eq_refl)) as [Hm Hw].
  destruct t as [s | m | k]; try discriminate.
  rewrite (rendered_typeBlockNames m Hw). reflexivity.
Qed.

(** X15: one type block for each definition.  When [WriteGo] returns,
    what follows the header holds, between the field blocks, as many
    blocks of the list, map, set and struct templates as there are
    reachable definitions, and their struct names are, in order, the names
    that [getGoStructName] gives the definitions in [written]. *)
Theorem one_type_block_each
        (Any : types.Set_ -> types.Value)
        (Any_In : forall s, types.Empty s = false -> In (Any s) s)
        (fuel : nat) (val : types.mapData) (pkg : string) (w0 : list Block) (ng : NG) :
  WriteGo Any fuel val pkg (New w0) = Some (Done tt ng) ->
  exists out,
    w ng = w0 ++ headerTmpl pkg :: out
    /\ map Ok (typeBlockNames out) = map (fun t => getGoStructName (Some t)) (written ng)
    /\ List.length (typeBlockNames out) = List.length (reachable val)
    /\ Permutation (written ng) (reachable val).
Proof.
  rewrite WriteGo_drain. intros H.
  destruct (started_Inv val pkg w0) as [HI HC].
  pose proof (drain_Inv Any Any_In val _ fuel _ _ HI H) as (Hnw & _ & _ & HR & Hw).
  destruct (drain_Closed Any Any_In val _ fuel _ ng HI HC H) as [HC' Hnil].
  simpl state in *.
  assert (HP : Permutation (written ng) (reachable val)).
  { apply NoDup_Permutation; [exact Hnw | apply reachable_NoDup |].
    intros t. rewrite reachable_spec. split; intros Ht.
    - apply HR. left. exact Ht.
    - apply (Closed_all val ng t HC' Hnil Ht). }
  assert (HN : map Ok (typeBlockNames (flat_map rendered (written ng)))
               = map (fun t => getGoStructName (Some t)) (written ng)).
  { apply rendered_all_typeBlockNames. intros t Ht. split.
    - apply (Reachable_isMap val). apply HR. left. exact Ht.
    - apply (drain_written_writable Any Any_In val _ fuel _ ng HI); [intros x [] | exact H |].
      exact Ht. }
  exists (flat_map rendered (written ng)). repeat apply conj.
  - rewrite Hw, <- app_assoc. reflexivity.
  - exact HN.
  - rewrite <- (Permutation_length HP).
    rewrite <- (length_map Ok), HN, length_map. reflexivity.
  - exact HP.
Qed.

Lemma one_type_block_each_witness :
  exists out,
    [headerTmpl "main"; listTempl "PointList" "Point"; structTempl "Point";
     fieldTempl "Point" "types.Int32" "X" "x"; fieldTempl "Point" "types.Int32" "Y" "y"]
    = [] ++ headerTmpl "main" :: out
    /\ map Ok (typeBlockNames out)
       = map (fun t => getGoStructName (Some t)) [ListDef Point; Point]
    /\ List.length (typeBlockNames out) = List.length (reachable (entriesOf (ListDef Point)))
    /\ Permutation [ListDef Point; Point] (reachable (entriesOf (ListDef Point))).
Proof.
  eassert (H : WriteGo AnyFirst 2 (entriesOf (ListDef Point)) "main" (New [])
               = Some (Done tt _)) by (vm_compute; reflexivity).
  apply (one_type_block_each AnyFirst AnyFirst_In 2 _ "main" [] _ H).
Defined.

(** ** Definitions that cannot be written *)

Lemma writeField_unnamed (sn fn : string) (typeDef : option types.Value) (p : Panic)
      (ng : NG) :
  getGoTypeName typeDef = Fail p ->
  exists p' ng', writeField sn fn typeDef ng = Panicked p' ng' /\ w ng' = w ng.
Proof.
  intros H. destruct (writeField_cases sn fn typeDef ng) as [(ft & ng' & E & _) | H'];
    [| exact H'].
  assert (HOk : isOk (getGoTypeName typeDef) = true)
    by (apply (writeField_returns_iff sn fn typeDef ng); exists ng'; exact E).
  rewrite H in HOk. discriminate.
Qed.

(** A list, map or set definition without a name is not written. *)
Lemma derived_unnamed (m : types.mapData) (typ : string) (p : Panic) (ng : NG) :
  types.Get (types.NewString "$type") m = Some (types.String typ) ->
  isDerived typ = true ->
  getGoStructName (Some (types.Map m)) = Fail p ->
  exists p' ng', writeType m ng = Panicked p' ng' /\ w ng' = w ng.
Proof.
  intros Ht Hd Hp. rewrite (writeType_dispatch m typ ng Ht). unfold isDerived in Hd.
  destruct (typ =? "noms.ListDef").
  { pose proof (elem_emitter listTempl m ng) as H. cbv zeta in H. rewrite Hp in H.
    exact H. }
  destruct (typ =? "noms.MapDef"); [apply (writeMap_unnamed m p ng Hp) |].
  destruct (typ =? "noms.SetDef"); [| discriminate].
  pose proof (elem_emitter setTempl m ng) as H. cbv zeta in H. rewrite Hp in H. exact H.
Qed.

(** A definition that refers to a type without a name has no name
    itself, when it is a list, a map or a set. *)
Lemma derived_child_unnamed (m : types.mapData) (typ : string) (c : types.Value)
      (p : Panic) :
  types.Get (types.NewString "$type") m = Some (types.String typ) ->
  isDerived typ = true ->
  In c (refs m) -> getGoStructName (Some c) = Fail p ->
  exists p', getGoStructName (Some (types.Map m)) = Fail p'.
Proof.
  intros Ht Hd Hc Hp. unfold refs in Hc. rewrite getGoStructName_Map.
  rewrite Ht in Hc |- *. simpl in Hc |- *. unfold isDerived in Hd.
  assert (HG : forall key, In c (optList (types.Get key m)) ->
                           getGoStructName (types.Get key m) = Fail p).
  { intros key. destruct (types.Get key m) as [v |]; [| contradiction].
    intros [<- | []]. exact Hp. }
  destruct (typ =? "noms.ListDef").
  { rewrite (HG _ Hc). eexists. reflexivity. }
  destruct (typ =? "noms.MapDef").
  { apply in_app_or in Hc. destruct Hc as [Hc | Hc]; rewrite (HG _ Hc).
    - eexists. reflexivity.
    - destruct (getGoStructName (types.Get (types.NewString "key") m));
        eexists; reflexivity. }
  destruct (typ =? "noms.SetDef"); [| discriminate].
  rewrite (HG _ Hc). eexists. reflexivity.
Qed.

Lemma writeStruct_Done_entries (m : types.mapData) (ng ng' : NG) :
  writeStruct m ng = Done tt ng' -> forallb entryOk m = true.
Proof.
  unfold writeStruct. intros H.
  apply bind_Done in H. destruct H as (sn & ng1 & _ & H).
  apply bind_Done in H. destruct H as (sn' & ng2 & _ & H).
  apply bind_Done in H. destruct H as ([] & ng3 & _ & H).
  apply (Iter_returns_iff sn m ng3). exists ng'. exact H.
Qed.

(** Writing a definition that refers to a type without a name panics,
    whatever kind of value that type is. *)
Lemma unnamed_child_panics (m : types.mapData) (c : types.Value) (p : Panic) (ng : NG) :
  In c (refs m) -> getGoStructName (Some c) = Fail p ->
  exists p' ng', writeType m ng = Panicked p' ng'.
Proof.
  intros Hc Hp.
  destruct (types.Get (types.NewString "$type") m) as [[typ | m' | k] |] eqn:Ht;
    try (unfold refs in Hc; rewrite Ht in Hc; contradiction).
  destruct (isDerived typ) eqn:Hd.
  - destruct (derived_child_unnamed m typ c p Ht Hd Hc Hp) as [p' Hp'].
    destruct (derived_unnamed m typ p' ng Ht Hd Hp') as (p'' & ng' & H & _).
    exists p'', ng'. exact H.
  - unfold isDerived in Hd. unfold refs in Hc. rewrite Ht in Hc. simpl in Hc.
    rewrite (writeType_dispatch m typ ng Ht).
    destruct (typ =? "noms.ListDef"); [discriminate |].
    destruct (typ =? "noms.MapDef"); [discriminate |].
    destruct (typ =? "noms.SetDef"); [discriminate |].
    destruct (typ =? "noms.StructDef"); [| contradiction].
    destruct (writeStruct m ng) as [[] ng' | p' ng'] eqn:E; [| eexists; eexists; reflexivity].
    exfalso. pose proof (writeStruct_Done_entries m ng ng' E) as Hall.
    unfold fieldRefs in Hc. apply in_map_iff in Hc. destruct Hc as ([k v] & <- & Hc).
    apply filter_In in Hc. destruct Hc as [Hin HF]. simpl in HF.
    rewrite forallb_forall in Hall. specialize (Hall (k, v) Hin).
    unfold entryOk in Hall. simpl fst in Hall. simpl snd in Hall.
    rewrite (field_not_meta k HF), HF, (getGoTypeName_fails (Some v) p Hp) in Hall.
    discriminate.
Qed.

Lemma panics_not_writable (m : types.mapData) :
  (exists p ng', writeType m (New []) = Panicked p ng') -> writable (types.Map m) = false.
Proof. intros (p & ng' & H). unfold writable. rewrite H. reflexivity. Qed.

(** A run in which a reachable definition cannot be written panics. *)
Lemma not_writable_panics
      (Any : types.Set_ -> types.Value)
      (Any_In : forall s, types.Empty s = false -> In (Any s) s)
      (fuel : nat) (val : types.mapData) (pkg : string) (w0 : list Block)
      (t : types.Value) :
  List.length (reachable val) <= fuel ->
  Reachable val t -> writable t = false ->
  exists p ng, WriteGo Any fuel val pkg (New w0) = Some (Panicked p ng).
Proof.
  intros Hfuel Hreach Hnot. rewrite WriteGo_drain.
  destruct (started_Inv val pkg w0) as [HI HC].
  destruct (drain_terminates Any Any_In val _ (List.length (reachable val)) _ HI)
    as [o Ho]; [simpl; lia |].
  assert (H : drain Any fuel (started val pkg w0) = Some o).
  { replace fuel with (List.length (reachable val) + (fuel - List.length (reachable val)))
      by lia.
    apply drain_more_fuel. exact Ho. }
  destruct o as [[] ng | p ng]; [exfalso | exists p, ng; exact H].
  destruct (drain_Closed Any Any_In val _ fuel _ ng HI HC H) as [HC' Hnil].
  pose proof (Closed_all val ng t HC' Hnil Hreach) as Hin.
  pose proof (drain_written_writable Any Any_In val _ fuel _ ng HI) as Hall.
  rewrite (Hall (fun x (F : In x []) => match F with end) H t Hin) in Hnot.
  discriminate.
Qed.

(** C6: a malformed type definition is fatal.  A map whose $type is none
    of the four shapes makes [writeType] panic at once, with the generator
    as it was, and makes the resolver panic; a string that is not the name
    of a primitive makes the resolver panic, and with it the writing of a
    field, list or set of that type and of a map with that key or value,
    before any block for it is written.  More generally a field whose type
    has no reference name is not written, and a definition that refers to
    a type without a name, be it a string that is no primitive or a map of
    an unknown shape, makes [writeType] panic.  A panic in the body of the
    loop ends [WriteGo] with that panic, and [WriteGo], given passes
    enough, does end in a panic whenever a reachable definition has an
    unknown shape or refers to a type without a name: nothing is passed
    over in silence.  Whatever was written before stays: [writeType] and
    [WriteGo] only append to the writer, and a root of an unknown shape
    leaves the header behind. *)
Theorem malformed_definitions_are_fatal :
  (forall m typ ng,
     types.Get (types.NewString "$type") m = Some (types.String typ) ->
     ~ In typ typeDefShapes ->
     writeType m ng = Panicked (UnexpectedTypedef (Some (types.Map m))) ng
     /\ getGoStructName (Some (types.Map m))
        = Fail (UnexpectedTypeDefStruct (Some (types.Map m))))
  /\ (forall name, isNomsTypeName name = false ->
        getGoStructName (Some (types.String name)) = Fail (UnexpectedNomsTypeName name)
        /\ getGoTypeName (Some (types.String name)) = Fail (UnexpectedNomsTypeName name))
  /\ (forall sn fn name ng, isNomsTypeName name = false ->
        writeField sn fn (Some (types.String name)) ng
        = Panicked (UnexpectedNomsTypeName name) ng)
  /\ (forall m typ name ng,
        types.Get (types.NewString "$type") m = Some (types.String typ) ->
        typ = "noms.ListDef" \/ typ = "noms.SetDef" ->
        types.Get (types.NewString "elem") m = Some (types.String name) ->
        isNomsTypeName name = false ->
        writeType m ng = Panicked (UnexpectedNomsTypeName name) ng)
  /\ (forall m key name ng,
        types.Get (types.NewString "$type") m = Some (types.String "noms.MapDef") ->
        key = "key" \/ key = "value" ->
        types.Get (types.NewString key) m = Some (types.String name) ->
        isNomsTypeName name = false ->
        exists p ng', writeType m ng = Panicked p ng' /\ w ng' = w ng)
  /\ (forall Any fuel ng p ng',
        types.Empty (toWrite ng) = false ->
        writeNext Any ng = Panicked p ng' ->
        drain Any (S fuel) ng = Some (Panicked p ng'))
  /\ (forall m ng, exists out, w (state (writeType m ng)) = w ng ++ out)
  /\ (forall Any fuel val pkg w0 o,
        WriteGo Any fuel val pkg (New w0) = Some o ->
        exists out, w (state o) = w0 ++ headerTmpl pkg :: out)
  /\ (forall Any, (forall s, types.Empty s = false -> In (Any s) s) ->
      forall fuel val typ pkg w0,
        types.Get (types.NewString "$type") val = Some (types.String typ) ->
        ~ In typ typeDefShapes ->
        WriteGo Any (S fuel) val pkg (New w0)
        = Some (Panicked (UnexpectedTypedef (Some (types.Map val)))
                  {| w := w0 ++ [headerTmpl pkg]; written := [types.Map val];
                     toWrite := [] |}))
  /\ (forall sn fn typeDef p ng, getGoTypeName typeDef = Fail p ->
        exists p' ng', writeField sn fn typeDef ng = Panicked p' ng' /\ w ng' = w ng)
  /\ (forall m c p ng, In c (refs m) -> getGoStructName (Some c) = Fail p ->
        exists p' ng', writeType m ng = Panicked p' ng')
  /\ (forall Any, (forall s, types.Empty s = false -> In (Any s) s) ->
      forall fuel val pkg w0 m,
        List.length (reachable val) <= fuel ->
        Reachable val (types.Map m) ->
        (exists typ, types.Get (types.NewString "$type") m = Some (types.String typ)
                     /\ ~ In typ typeDefShapes)
        \/ (exists name, In (types.String name) (refs m) /\ isNomsTypeName name = false)
        \/ (exists c p, In c (refs m) /\ getGoStructName (Some c) = Fail p) ->
        exists p ng, WriteGo Any fuel val pkg (New w0) = Some (Panicked p ng)).
Proof.
  assert (Hshape : forall m typ ng,
     types.Get (types.NewString "$type") m = Some (types.String typ) ->
     ~ In typ typeDefShapes ->
     writeType m ng = Panicked (UnexpectedTypedef (Some (types.Map m))) ng).
  { intros m typ ng Ht Hn. destruct (not_a_shape typ Hn) as (E1 & E2 & E3 & E4).
    unfold writeType, bind. rewrite Ht. simpl. rewrite E1, E2, E3, E4. reflexivity. }
  repeat apply conj.
  - intros m typ ng Ht Hn. split; [apply (Hshape m typ ng Ht Hn) |].
    destruct (not_a_shape typ Hn) as (E1 & E2 & E3 & E4).
    rewrite getGoStructName_Map, Ht. simpl. rewrite E1, E2, E3, E4. reflexivity.
  - intros name H. unfold getGoTypeName. rewrite getGoStructName_String, H.
    split; reflexivity.
  - intros sn fn name ng H. unfold writeField, bind, getGoTypeName.
    rewrite getGoStructName_String, H. reflexivity.
  - intros m typ name ng Ht Htyp He Hn.
    unfold writeType, bind. rewrite Ht. simpl.
    destruct Htyp as [-> | ->]; simpl; unfold writeList, writeSet, bind, getGoTypeName;
      rewrite getGoStructName_Map, Ht, He; cbn -[isNomsTypeName];
      rewrite Hn; reflexivity.
  - intros m key name ng Ht Hkey Hk Hn.
    unfold writeType, bind at 1. rewrite Ht. simpl.
    assert (Hfail : exists p, getGoStructName (Some (types.Map m)) = Fail p).
    { rewrite getGoStructName_Map, Ht. simpl. destruct Hkey as [-> | ->]; rewrite Hk;
        rewrite getGoStructName_String, Hn; [eexists; reflexivity |].
      destruct (getGoStructName (types.Get (types.NewString "key") m)); simpl;
        eexists; reflexivity. }
    destruct Hfail as [p Hp]. apply (writeMap_unnamed m p ng Hp).
  - intros Any fuel ng p ng' HE H. simpl. rewrite HE, H. reflexivity.
  - intros m ng. eexists. apply writeType_rendered.
  - intros Any fuel val pkg w0 o. rewrite WriteGo_drain. intros H.
    destruct (drain_appends Any fuel _ o H) as [out Hout]. exists out.
    rewrite Hout. simpl. rewrite <- app_assoc. reflexivity.
  - intros Any Any_In fuel val typ pkg w0 Ht Hn. rewrite WriteGo_drain.
    simpl. rewrite (writeNext_started Any Any_In), (Hshape val typ _ Ht Hn). reflexivity.
  - apply writeField_unnamed.
  - apply unnamed_child_panics.
  - intros Any Any_In fuel val pkg w0 m Hfuel Hreach Hbad.
    apply (not_writable_panics Any Any_In fuel val pkg w0 (types.Map m) Hfuel Hreach).
    apply panics_not_writable.
    destruct Hbad as [(typ & Ht & Hn) | [(name & Hc & Hn) | (c & p & Hc & Hp)]].
    + eexists. eexists. apply (Hshape m typ _ Ht Hn).
    + apply (unnamed_child_panics m (types.String name) (UnexpectedNomsTypeName name));
        [exact Hc |]. rewrite getGoStructName_String, Hn. reflexivity.
    + apply (unnamed_child_panics m c p); assumption.
Qed.

Lemma malformed_definitions_are_fatal_witness :
  WriteGo AnyFirst 1 [(types.String "$type", types.String "noms.TupleDef")] "main" (New [])
  = Some (Panicked
            (UnexpectedTypedef
               (Some (types.Map [(types.String "$type", types.String "noms.TupleDef")])))
            {| w := [headerTmpl "main"];
               written := [types.Map [(types.String "$type", types.String "noms.TupleDef")]];
               toWrite := [] |})
  /\ writeField "Point" "x" (Some (types.String "int8")) (New [])
     = Panicked (UnexpectedNomsTypeName "int8") (New [])
  /\ exists p ng,
       WriteGo AnyFirst 2
         (entriesOf
            (StructDef "U"
               [("a", types.Map [(types.String "$type", types.String "noms.TupleDef")]);
                ("b", types.String "int32")]))
         "main" (New [])
       = Some (Panicked p ng).
Proof.
  destruct malformed_definitions_are_fatal
    as (_ & _ & HField & _ & _ & _ & _ & _ & HRoot & _ & _ & HRun).
  split; [| split].
  - apply (HRoot AnyFirst AnyFirst_In 0 _ "noms.TupleDef" "main" []); [reflexivity |].
    simpl. intros [H | [H | [H | [H | []]]]]; discriminate.
  - apply (HField "Point" "x" "int8" (New [])). reflexivity.
  - apply (HRun AnyFirst AnyFirst_In 2
             (entriesOf
                (StructDef "U"
                   [("a", types.Map [(types.String "$type", types.String "noms.TupleDef")]);
                    ("b", types.String "int32")]))
             "main" []
             (entriesOf
                (StructDef "U"
                   [("a", types.Map [(types.String "$type", types.String "noms.TupleDef")]);
                    ("b", types.String "int32")])));
      [vm_compute; lia | apply Reachable_root |].
    right. right.
    exists (types.Map [(types.String "$type", types.String "noms.TupleDef")]).
    eexists. split; [simpl; tauto | reflexivity].
Defined.

(** ** Each definition, once *)

Lemma single_name (names : list string) (r : Result string) :
  map Ok names = [r] -> exists sn, r = Ok sn /\ names = [sn].
Proof.
  destruct names as [| sn [| sn' names]]; try discriminate.
  intros H. injection H as <-. exists sn. split; reflexivity.
Qed.

(** C1: each type definition is written exactly once.  Whatever member
    [Any] picks, [WriteGo] ends when it is given as many passes as there
    are reachable definitions; and in whatever it ends, what it wrote is
    the header followed by what is rendered for the type definitions of a
    list in which no definition comes twice and which holds reachable
    definitions only.  When [WriteGo] returns, this list holds every map
    that can be reached from the root, however many definitions refer to
    it, and what is rendered for each of them holds exactly one block of
    the list, map, set or struct template, under the name of the
    definition: the output has one such block for each reachable
    definition, in the order of the list.  When [WriteGo] panics instead,
    no definition was written twice until then. *)
Theorem each_definition_written_once
        (Any : types.Set_ -> types.Value)
        (Any_In : forall s, types.Empty s = false -> In (Any s) s)
        (val : types.mapData) (pkg : string) (w0 : list Block) :
  (exists o, forall fuel, List.length (reachable val) <= fuel ->
                          WriteGo Any fuel val pkg (New w0) = Some o)
  /\ forall fuel o,
       WriteGo Any fuel val pkg (New w0) = Some o ->
       exists order,
         NoDup order
         /\ (forall t, In t order -> Reachable val t)
         /\ w (state o) = w0 ++ headerTmpl pkg :: flat_map rendered order
         /\ (forall ng, o = Done tt ng ->
               (forall t, Reachable val t -> In t order)
               /\ (forall t, In t order ->
                     exists sn, getGoStructName (Some t) = Ok sn
                                /\ typeBlockNames (rendered t) = [sn])
               /\ map Ok (typeBlockNames (flat_map rendered order))
                  = map (fun t => getGoStructName (Some t)) order).
Proof.
  destruct (started_Inv val pkg w0) as [HI HC]. split.
  - destruct (drain_terminates Any Any_In val _ (List.length (reachable val)) _ HI)
      as [o Ho]; [simpl; lia |].
    exists o. intros fuel Hfuel. rewrite WriteGo_drain.
    replace fuel with (List.length (reachable val) + (fuel - List.length (reachable val)))
      by lia.
    apply drain_more_fuel. exact Ho.
  - intros fuel o. rewrite WriteGo_drain. intros H.
    pose proof (drain_Inv Any Any_In val _ fuel _ o HI H) as (Hnw & _ & _ & HR & Hw).
    exists (written (state o)). repeat apply conj.
    + exact Hnw.
    + intros t Ht. apply HR. left. exact Ht.
    + rewrite Hw, <- app_assoc. reflexivity.
    + intros ng ->. simpl in Hnw, HR, Hw |- *.
      destruct (drain_Closed Any Any_In val _ fuel _ ng HI HC H) as [HC' Hnil].
      assert (Hwt : forall t, In t (written ng) -> isMap t = true /\ writable t = true).
      { intros t Ht. split.
        - apply (Reachable_isMap val). apply HR. left. exact Ht.
        - apply (drain_written_writable Any Any_In val _ fuel _ ng HI);
            [intros x [] | exact H | exact Ht]. }
      repeat apply conj.
      * intros t Ht. apply (Closed_all val ng t HC' Hnil Ht).
      * intros t Ht. destruct (Hwt t Ht) as [Hm Hwr].
        destruct t as [s | m | k]; try discriminate.
        destruct (single_name _ _ (rendered_typeBlockNames m Hwr)) as (sn & Hsn & Hb).
        exists sn. split; assumption.
      * apply rendered_all_typeBlockNames. exact Hwt.
Qed.

Lemma each_definition_written_once_witness :
  exists order,
    NoDup order
    /\ (forall t, In t order ->
          Reachable (entriesOf (StructDef "Pair" [("a", SetDef Point); ("b", SetDef Point)])) t)
    /\ [headerTmpl "main"; structTempl "Pair";
        fieldTempl "Pair" "PointSet" "A" "a"; fieldTempl "Pair" "PointSet" "B" "b";
        setTempl "PointSet" "Point";
        structTempl "Point"; fieldTempl "Point" "types.Int32" "X" "x";
        fieldTempl "Point" "types.Int32" "Y" "y"]
       = [] ++ headerTmpl "main" :: flat_map rendered order
    /\ (forall t, Reachable (entriesOf (StructDef "Pair" [("a", SetDef Point);
                                                          ("b", SetDef Point)])) t ->
                  In t order)
    /\ (forall t, In t order ->
          exists sn, getGoStructName (Some t) = Ok sn /\ typeBlockNames (rendered t) = [sn])
    /\ map Ok (typeBlockNames (flat_map rendered order))
       = map (fun t => getGoStructName (Some t)) order.
Proof.
  eassert (H : WriteGo AnyFirst 3
                  (entriesOf (StructDef "Pair" [("a", SetDef Point); ("b", SetDef Point)]))
                  "main" (New []) = Some (Done tt _)) by (vm_compute; reflexivity).
  destruct (proj2 (each_definition_written_once AnyFirst AnyFirst_In _ "main" []) 3 _ H)
    as (order & Hn & Hr & Hw & HDone).
  destruct (HDone _ eq_refl) as (Hall & Hone & Hnames).
  exists order. repeat split; assumption.
Defined.
